(** * Octotree adapter: tree builder and HTTP error classifier

    A shallow embedding of [src/adapters/adapter.js]: the method
    [_loadCodeTreeInternal] (with its inner [nextChunk] loop) and the
    method [_handleError], followed by the properties proved about them.

    Conventions of the embedding
    - a JavaScript string is the list of its UTF-16 code units ([list Z]);
      [lit] turns a Rocq literal into such a list, [qlit] does the same and
      reads a backquote of the literal as the double-quote character;
    - an exception thrown by the JavaScript code is a [Throw] result;
    - objects mutated in place (the entries, the child arrays, the
      [folders] map) live in an explicit store, and arrays are referred to
      by their index in that store, so that aliasing is kept. *)

From Stdlib Require Import ZArith String Ascii Lia DecimalString.
From stdpp Require Import base list gmap.

Open Scope Z_scope.

(* ================================================================== *)
(** ** JavaScript strings and the built-in operations the adapter uses *)
(* ================================================================== *)

Module JS.

Abbreviation str := (list Z).

Definition lit (s : string) : str :=
  List.map (fun a => Z.of_N (N_of_ascii a)) (list_ascii_of_string s).

(** [qlit] is [lit] for literals that contain double quotes: they are
    written with a backquote (96) in place of each double quote (34). *)
Definition qlit (s : string) : str :=
  List.map (fun c => if c =? 96 then 34 else c) (lit s).

(** [len s] is [s.length]. *)
Definition len (s : str) : Z := Z.of_nat (length s).

Fixpoint str_eqb (a b : str) : bool :=
  match a, b with
  | [], [] => true
  | x :: a', y :: b' => (x =? y) && str_eqb a' b'
  | _, _ => false
  end.

(** [startsWith pat s]: [pat] is a prefix of [s]. *)
Fixpoint startsWith (pat s : str) : bool :=
  match pat, s with
  | [], _ => true
  | p :: pat', c :: s' => (p =? c) && startsWith pat' s'
  | _ :: _, [] => false
  end.

Fixpoint indexOf_from (pat s : str) (i : Z) {struct s} : Z :=
  if startsWith pat s then i
  else match s with
       | [] => -1
       | _ :: s' => indexOf_from pat s' (i + 1)
       end.

(** [indexOf s pat] is [s.indexOf(pat)]: the first position at which
    [pat] occurs, [-1] when it does not occur. *)
Definition indexOf (s pat : str) : Z := indexOf_from pat s 0.

Fixpoint lastIndexOf_from (pat s : str) (i last : Z) {struct s} : Z :=
  let last' := if startsWith pat s then i else last in
  match s with
  | [] => last'
  | _ :: s' => lastIndexOf_from pat s' (i + 1) last'
  end.

(** [lastIndexOf s pat] is [s.lastIndexOf(pat)]. *)
Definition lastIndexOf (s pat : str) : Z := lastIndexOf_from pat s 0 (-1).

(** [~x] on a number that fits 32 bits, and JavaScript truthiness of a
    number. *)
Definition bitnot (x : Z) : Z := Z.lnot x.
Definition truthy_num (x : Z) : bool := negb (x =? 0).

(** Truthiness of a string: every string but the empty one. *)
Definition truthy_str (s : str) : bool :=
  match s with [] => false | _ :: _ => true end.

Definition clamp (n z : Z) : Z := Z.max 0 (Z.min z n).

(** [substring s a b] is [s.substring(a, b)]: both bounds are clamped to
    [0 .. s.length] and swapped when [a > b]. *)
Definition substring (s : str) (a b : Z) : str :=
  let a' := clamp (len s) a in
  let b' := clamp (len s) b in
  let lo := Z.min a' b' in
  let hi := Z.max a' b' in
  take (Z.to_nat (hi - lo)) (drop (Z.to_nat lo) s).

(** [substring_from s a] is [s.substring(a)]. *)
Definition substring_from (s : str) (a : Z) : str := substring s a (len s).

(** [substr s a n] is [s.substr(a, n)] for [0 <= a]. *)
Definition substr (s : str) (a n : Z) : str :=
  take (Z.to_nat n) (drop (Z.to_nat a) s).

(** [split sep s] is [s.split(c)] for a one-character separator whose
    code unit is [sep]. *)
Fixpoint split (sep : Z) (s : str) : list str :=
  match s with
  | [] => [[]]
  | c :: s' =>
      if c =? sep then [] :: split sep s'
      else match split sep s' with
           | seg :: segs => (c :: seg) :: segs
           | [] => [[c]]
           end
  end.

(** [join sep l] is [l.join(sep)]. *)
Fixpoint join (sep : str) (l : list str) : str :=
  match l with
  | [] => []
  | [s] => s
  | s :: l' => s ++ sep ++ join sep l'
  end.

(** [replace pat rep s] is [s.replace(pat, rep)] for a string pattern
    [pat] and a replacement [rep] without dollar sign: the first
    occurrence of [pat] is replaced. *)
Fixpoint replace (pat rep s : str) {struct s} : str :=
  if startsWith pat s then rep ++ drop (length pat) s
  else match s with
       | [] => []
       | c :: s' => c :: replace pat rep s'
       end.

(** A number put into a template literal. The numbers of the adapter
    are integer counts and identifiers, printed in decimal. *)
Definition num_to_string (z : Z) : str :=
  lit (NilZero.string_of_int (Z.to_int z)).

(** A possibly absent number put into a template literal. *)
Definition tmpl_num (o : option Z) : str :=
  match o with
  | Some z => num_to_string z
  | None => lit "undefined"
  end.

(** A possibly absent string put into a template literal. *)
Definition tmpl_str (o : option str) : str :=
  match o with
  | Some s => s
  | None => lit "undefined"
  end.

(** *** Exceptions *)

(** The exceptions the adapter code can raise on entries of the right
    shape, named after the place that raises them. *)
Inductive Exn : Type :=
  | TypeError_no_bucket (key : str)
      (* [folders[key]] is undefined (or has no [push]) *)
  | TypeError_no_sha
      (* [item.sha] is undefined when [substr] is called on it *)
  | TypeError_not_a_string
      (* [submodules[path]] is a member of [Object.prototype] *)
  | URIError.
      (* raised by [encodeURIComponent] and [decodeURIComponent] *)

Inductive Res (A : Type) : Type :=
  | Ok (a : A)
  | Throw (e : Exn).
Arguments Ok {A} a.
Arguments Throw {A} e.

#[global] Instance Res_bind : MBind Res := fun A B k r =>
  match r with
  | Ok a => k a
  | Throw e => Throw e
  end.

(** [mapM f l] is [l.map(f)] for a callback that can throw. *)
Fixpoint mapM {A B : Type} (f : A -> Res B) (l : list A) : Res (list B) :=
  match l with
  | [] => Ok []
  | x :: l' => y ← f x; ys ← mapM f l'; Ok (y :: ys)
  end.

(** *** The text of a DOM node read back as HTML

    [$dummyDiv.text(s).html()] stores [s] as the text content of an
    element and serializes it again: the HTML serialization of a text
    node escapes the ampersand, the no-break space and the two angle
    brackets, and nothing else. *)
Definition escape_char (c : Z) : str :=
  if c =? 38 then lit "&amp;"
  else if c =? 160 then lit "&nbsp;"
  else if c =? 60 then lit "&lt;"
  else if c =? 62 then lit "&gt;"
  else [c].

Definition text_html (s : str) : str := flat_map escape_char s.

(** *** [encodeURIComponent] and [decodeURIComponent] (ECMAScript
    Encode and Decode with the unreserved set of URI components) *)

Definition code_unit (c : Z) : Prop := 0 <= c < 65536.

Definition is_high_surrogate (c : Z) : bool := (55296 <=? c) && (c <=? 56319).
Definition is_low_surrogate (c : Z) : bool := (56320 <=? c) && (c <=? 57343).

(** [isWellFormed s] is [s.isWellFormed()]: no lone surrogate. *)
Fixpoint isWellFormed (s : str) : bool :=
  match s with
  | [] => true
  | c :: s' =>
      if is_low_surrogate c then false
      else if is_high_surrogate c then
        match s' with
        | d :: s'' => is_low_surrogate d && isWellFormed s''
        | [] => false
        end
      else isWellFormed s'
  end.

(** Letters, digits and [- _ . ! ~ * ' ( )]. *)
Definition unreserved (c : Z) : bool :=
  ((65 <=? c) && (c <=? 90)) || ((97 <=? c) && (c <=? 122))
  || ((48 <=? c) && (c <=? 57))
  || existsb (Z.eqb c) (lit "-_.!~*'()").

Definition hexdigit (d : Z) : Z := if d <? 10 then 48 + d else 55 + d.

(** One octet as a percent sign and two upper-case hexadecimal digits. *)
Definition pct (b : Z) : str := [37; hexdigit (b / 16); hexdigit (b mod 16)].

(** The UTF-8 octets of a code point. *)
Definition utf8 (v : Z) : list Z :=
  if v <? 128 then [v]
  else if v <? 2048 then [192 + v / 64; 128 + v mod 64]
  else if v <? 65536 then
    [224 + v / 4096; 128 + (v / 64) mod 64; 128 + v mod 64]
  else
    [240 + v / 262144; 128 + (v / 4096) mod 64;
     128 + (v / 64) mod 64; 128 + v mod 64].

Definition pair_code_point (hi lo : Z) : Z :=
  (hi - 55296) * 1024 + (lo - 56320) + 65536.

Fixpoint encodeURIComponent (s : str) : Res str :=
  match s with
  | [] => Ok []
  | c :: s' =>
      if unreserved c then
        r ← encodeURIComponent s'; Ok (c :: r)
      else if is_low_surrogate c then Throw URIError
      else if is_high_surrogate c then
        match s' with
        | [] => Throw URIError
        | d :: s'' =>
            if is_low_surrogate d then
              r ← encodeURIComponent s'';
              Ok (flat_map pct (utf8 (pair_code_point c d)) ++ r)
            else Throw URIError
        end
      else
        r ← encodeURIComponent s'; Ok (flat_map pct (utf8 c) ++ r)
  end.

Definition hexval (c : Z) : option Z :=
  if (48 <=? c) && (c <=? 57) then Some (c - 48)
  else if (65 <=? c) && (c <=? 70) then Some (c - 55)
  else if (97 <=? c) && (c <=? 102) then Some (c - 87)
  else None.

(** The octet written by two hexadecimal digits. *)
Definition octet (h l : Z) : option Z :=
  match hexval h, hexval l with
  | Some a, Some b => Some (16 * a + b)
  | _, _ => None
  end.

(** A continuation octet [%XY] with bits [10xxxxxx]: its six low bits. *)
Definition continuation (p h l : Z) : option Z :=
  if p =? 37 then
    match octet h l with
    | Some b => if (128 <=? b) && (b <? 192) then Some (b - 128) else None
    | None => None
    end
  else None.

(** The code units of a decoded code point. *)
Definition units (v : Z) : str :=
  if v <? 65536 then [v]
  else [55296 + (v - 65536) / 1024; 56320 + (v - 65536) mod 1024].

(** [decodeURIComponent]: a code unit other than the percent sign is
    kept; a percent sign starts an escape [%XY]; an octet below 128 is one
    character; an octet that announces [n] octets (2, 3 or 4) is followed
    by [n - 1] continuation escapes, and the sequence must be the UTF-8
    form of a code point (shortest form, no surrogate, at most 10FFFF).
    Everything else raises [URIError]. *)
Fixpoint decodeURIComponent (s : str) : Res str :=
  match s with
  | [] => Ok []
  | c :: s1 =>
      if negb (c =? 37) then r ← decodeURIComponent s1; Ok (c :: r)
      else
        match s1 with
        | h :: l :: s2 =>
            match octet h l with
            | None => Throw URIError
            | Some b =>
                if b <? 128 then r ← decodeURIComponent s2; Ok (b :: r)
                else if b <? 192 then Throw URIError
                else if b <? 224 then
                  match s2 with
                  | p1 :: h1 :: l1 :: s3 =>
                      match continuation p1 h1 l1 with
                      | Some b1 =>
                          let v := (b - 192) * 64 + b1 in
                          if 128 <=? v then
                            r ← decodeURIComponent s3; Ok (units v ++ r)
                          else Throw URIError
                      | None => Throw URIError
                      end
                  | _ => Throw URIError
                  end
                else if b <? 240 then
                  match s2 with
                  | p1 :: h1 :: l1 :: p2 :: h2 :: l2 :: s3 =>
                      match continuation p1 h1 l1, continuation p2 h2 l2 with
                      | Some b1, Some b2 =>
                          let v := (b - 224) * 4096 + b1 * 64 + b2 in
                          if (2048 <=? v)
                             && negb ((55296 <=? v) && (v <=? 57343)) then
                            r ← decodeURIComponent s3; Ok (units v ++ r)
                          else Throw URIError
                      | _, _ => Throw URIError
                      end
                  | _ => Throw URIError
                  end
                else if b <? 248 then
                  match s2 with
                  | p1 :: h1 :: l1 :: p2 :: h2 :: l2 :: p3 :: h3 :: l3 :: s3 =>
                      match continuation p1 h1 l1, continuation p2 h2 l2,
                            continuation p3 h3 l3 with
                      | Some b1, Some b2, Some b3 =>
                          let v := (b - 240) * 262144 + b1 * 4096
                                   + b2 * 64 + b3 in
                          if (65536 <=? v) && (v <=? 1114111) then
                            r ← decodeURIComponent s3; Ok (units v ++ r)
                          else Throw URIError
                      | _, _, _ => Throw URIError
                      end
                  | _ => Throw URIError
                  end
                else Throw URIError
            end
        | _ => Throw URIError
        end
  end.

(** *** The two regular expressions of the submodule branch *)

(** [s.replace(/^git(:\/\/|@)/, rep)] for a replacement [rep] without
    dollar sign: a leading [git://] or [git@] is replaced. *)
Definition replace_git_scheme (rep s : str) : str :=
  if startsWith (lit "git://") s then rep ++ drop 6 s
  else if startsWith (lit "git@") s then rep ++ drop 4 s
  else s.

(** The characters the dot of a regular expression (without the [s]
    flag) does not match. *)
Definition line_terminator (c : Z) : bool :=
  (c =? 10) || (c =? 13) || (c =? 8232) || (c =? 8233).

(** [s.replace(/.git$/, '')]: the pattern can only match the last four
    code units: one that is not a line terminator, then [g], [i], [t]. *)
Definition strip_dot_git (s : str) : str :=
  let n := (length s - 4)%nat in
  match drop n s with
  | [c; g; i; t] =>
      if negb (line_terminator c) && (g =? 103) && (i =? 105) && (t =? 116)
      then take n s
      else s
  | _ => s
  end.

End JS.

(* ================================================================== *)
(** ** The data of the adapter *)
(* ================================================================== *)

Module Adapter.
Import JS.

(** The [type] of an entry of a repository tree: one of the three
    strings the hosting API uses. *)
Inductive EntryType : Type := blob | tree | commit.

Definition type_name (t : EntryType) : str :=
  match t with
  | blob => lit "blob"
  | tree => lit "tree"
  | commit => lit "commit"
  end.

(** [patch.action]; [modified] stands for every value that the [switch]
    sends to its [default] branch. *)
Inductive Action : Type := added | renamed | removed | modified.

(** The patch information of an entry shown as part of a pull request.
    An absent ([undefined]) property is [None]. *)
Record PatchInfo : Type := {
  action : Action;
  previous : option str;
  filesChanged : option Z;
  additions : option Z;
  deletions : option Z;
  diffId : option Z
}.

(** [item.children]: not set, the lazy marker [true], or a reference to
    an array of the store. *)
Inductive Children : Type :=
  | NoChildren
  | LazyChildren
  | ChildArray (r : nat).

(** [item.a_attr]. *)
Record Attr : Type := {
  href : str;
  data_download_url : option str;
  data_download_filename : option str
}.

(** An entry of the tree. The builder writes [id], [text], [icon],
    [children] and [a_attr] into the very object it received, so the raw
    entry and the rendered node are one record. *)
Record Item : Type := {
  path : str;
  type : EntryType;
  sha : option str;
  url : option str;
  patch : option PatchInfo;
  id : option str;
  text : option str;
  icon : option str;
  children : Children;
  a_attr : option Attr
}.

(** An entry as the hosting API reports it. *)
Definition entry (p : str) (t : EntryType) (s u : option str)
    (pa : option PatchInfo) : Item :=
  {| path := p; type := t; sha := s; url := u; patch := pa;
     id := None; text := None; icon := None;
     children := NoChildren; a_attr := None |}.

Record Repo : Type := {
  username : str;
  reponame : str;
  branch : str;
  pullNumber : option Z
}.

(** The selected node of a lazy load; [node_path] is [None] when the
    node has no [path]. *)
Record Node : Type := { node_path : option str }.

Record Opts : Type := {
  opts_path : str;
  repo : Repo;
  node : option Node;
  encodedBranch : option str
}.

(** What [_handleError] hands to its callback, also the error value of
    the two fetch operations. *)
Record ErrorInfo : Type := { error : str; message : str }.

(** The response and the request settings given to [_handleError];
    [responseHeaders] is the string [getAllResponseHeaders()] returns. *)
Record jqXHR : Type := {
  status : Z;
  statusText : str;
  responseHeaders : str
}.

Record Settings : Type := { headers : list (str * str) }.

(** The collaborators of the class that are not defined in this file:
    the global constant [NODE_PREFIX], the stored icon preference
    [store.get(STORE.ICONS)], [FileIcons.getClassWithColor],
    [window.location.protocol], [octotree.getInvalidTokenMessage], and
    the two methods [_getTree] and [_getSubmodules] that subclasses
    implement (each with the value it passes to its callback). The
    protocol is a URL scheme and a colon, so it has no dollar sign that
    [String.prototype.replace] would expand. *)
Record Host : Type := {
  NODE_PREFIX : str;
  store_icons : bool;
  getClassWithColor : str -> option str;
  location_protocol : str;
  getInvalidTokenMessage : Z -> list (str * str) -> str;
  _getTree : str -> Opts -> ErrorInfo + list Item;
  _getSubmodules : list Item -> Opts -> ErrorInfo + option (gmap str str)
}.

(** The mutable objects of one call: the entries of [tree] (mutated in
    place), the arrays created by the call (each one a list of
    references to entries, that is of indices of [tree]), and the
    [folders] object, which maps a directory path to a reference to an
    array. Array [0] is the one [folders] starts with under the empty
    key. The map holds the keys the call has written; reading any other
    key gives [undefined] or a member inherited from [Object.prototype],
    and neither has a [push] method. *)
Record State : Type := {
  items : list Item;
  arrays : list (list nat);
  folders : gmap str nat
}.

Definition init_state (t : list Item) : State :=
  {| items := t; arrays := [[]]; folders := {[ [] := 0%nat ]} |}.

(** The outcome of a call: the callback receives an error, or the
    value of [folders['']] (a reference to an array of the final store,
    [None] for [undefined]). *)
Inductive Outcome : Type :=
  | CbError (e : ErrorInfo)
  | CbTree (root : option nat) (st : State).

(* ================================================================== *)
(** ** The conversion of one entry *)
(* ================================================================== *)

(** [_getItemHref(repo, type, encodedPath, encodedBranch)] *)
Definition _getItemHref (r : Repo) (t : EntryType)
    (encodedPath encodedBranch : str) : str :=
  lit "/" ++ username r ++ lit "/" ++ reponame r ++ lit "/"
  ++ type_name t ++ lit "/" ++ encodedBranch ++ lit "/" ++ encodedPath.

(** [_getPatchHref(repo, patch)] *)
Definition _getPatchHref (r : Repo) (p : PatchInfo) : str :=
  lit "/" ++ username r ++ lit "/" ++ reponame r ++ lit "/pull/"
  ++ tmpl_num (pullNumber r) ++ lit "/files#diff-" ++ tmpl_num (diffId p).

(** [opts.encodedBranch || encodeURIComponent(decodeURIComponent(repo.branch))] *)
Definition resolve_branch (o : Opts) : Res str :=
  match encodedBranch o with
  | Some b =>
      if truthy_str b then Ok b
      else d ← decodeURIComponent (branch (repo o)); encodeURIComponent d
  | None => d ← decodeURIComponent (branch (repo o)); encodeURIComponent d
  end.

(** The path after [if (node && node.path) item.path = node.path + '/' + item.path]. *)
Definition prefixed_path (nd : option Node) (p : str) : str :=
  match nd with
  | Some {| node_path := Some np |} =>
      if truthy_str np then np ++ lit "/" ++ p else p
  | _ => p
  end.

(** [name]: the sanitized last segment of the path. *)
Definition item_name (p : str) : str :=
  text_html (substring_from p (lastIndexOf p (lit "/") + 1)).

(** [item.icon] *)
Definition item_icon (h : Host) (t : EntryType) (name : str) : str :=
  match t with
  | blob =>
      if store_icons h then
        type_name t ++ lit " "
        ++ match getClassWithColor h name with
           | Some className =>
               if truthy_str className then className else lit "file-generic"
           | None => lit "file-generic"
           end
      else type_name t ++ lit " file-generic"
  | _ => type_name t
  end.

(** The badge of [switch (item.patch.action)]. *)
Definition action_badge (p : PatchInfo) : str :=
  match action p with
  | added => qlit "<span class=`text-green`>added</span>"
  | renamed =>
      qlit "<span class=`text-green` title=`" ++ tmpl_str (previous p)
      ++ qlit "`>renamed</span>"
  | removed =>
      qlit "<span class=`text-red` title=`" ++ tmpl_str (previous p)
      ++ qlit "`>removed</span>"
  | modified => []
  end.

(** [if (item.patch.filesChanged) ...] *)
Definition files_badge (p : PatchInfo) : str :=
  match filesChanged p with
  | Some n =>
      if truthy_num n then
        lit "<span>" ++ num_to_string n ++ lit " "
        ++ (if n =? 1 then lit "file" else lit "files") ++ lit "</span>"
      else []
  | None => []
  end.

(** [x !== 0] for a property that is a number or absent. *)
Definition strict_neq_zero (x : option Z) : bool :=
  match x with
  | Some z => negb (z =? 0)
  | None => true
  end.

(** [if (item.patch.additions !== 0) ...] *)
Definition additions_badge (p : PatchInfo) : str :=
  if strict_neq_zero (additions p) then
    qlit "<span class=`text-green`>+" ++ tmpl_num (additions p)
    ++ lit "</span>"
  else [].

(** [if (item.patch.deletions !== 0) ...] *)
Definition deletions_badge (p : PatchInfo) : str :=
  if strict_neq_zero (deletions p) then
    qlit "<span class=`text-red`>-" ++ tmpl_num (deletions p)
    ++ lit "</span>"
  else [].

Definition patch_html (p : PatchInfo) : str :=
  action_badge p ++ files_badge p ++ additions_badge p ++ deletions_badge p.

(** [item.text] after the [if (item.patch)] block. *)
Definition patched_text (name : str) (pa : option PatchInfo) : str :=
  match pa with
  | Some p => name ++ qlit "<span class=`patch`>" ++ patch_html p ++ lit "</span>"
  | None => name
  end.

(** [folders[key].push(item)], the entry being referred to by its
    index [k]; the call throws a TypeError when [folders] has no array
    under [key]. *)
Definition push_item (st : State) (key : str) (k : nat) : Res State :=
  match folders st !! key with
  | Some r =>
      Ok {| items := items st;
            arrays := alter (fun l => l ++ [k]) r (arrays st);
            folders := folders st |}
  | None => Throw (TypeError_no_bucket key)
  end.

(** [folders[item.path] = item.children = []]: a new array, known to
    [folders] under the path of the entry. *)
Definition register_bucket (st : State) (p : str) : State * nat :=
  let r := length (arrays st) in
  ({| items := items st;
      arrays := arrays st ++ [[]];
      folders := <[p := r]> (folders st) |}, r).

(** [path.split('/').map(encodeURIComponent).join('/')] *)
Definition encoded_path (p : str) : Res str :=
  segs ← mapM encodeURIComponent (split 47 p); Ok (join (lit "/") segs).

(** [item.a_attr] of a [tree] or [blob] entry: the link to the diff of
    the pull request when [typeof item.patch.diffId === 'number'], the
    link to the item otherwise. *)
Definition item_a_attr (r : Repo) (t : EntryType) (p name encBranch : str)
    (u : option str) (pa : option PatchInfo) : Res Attr :=
  let item_link :=
    encodedPath ← encoded_path p;
    let url := _getItemHref r t encodedPath encBranch in
    Ok {| href := url;
          data_download_url := Some url;
          data_download_filename := Some name |} in
  match pa with
  | Some q =>
      match diffId q with
      | Some _ =>
          Ok {| href := _getPatchHref r q;
                data_download_url := u;
                data_download_filename := Some name |}
      | None => item_link
      end
  | None => item_link
  end.

(** The names every object inherits from [Object.prototype]: reading
    one of them from [submodules] gives a function (or the prototype
    itself), not [undefined]. *)
Definition Object_prototype_keys : list str :=
  [lit "constructor"; lit "hasOwnProperty"; lit "isPrototypeOf";
   lit "propertyIsEnumerable"; lit "toLocaleString"; lit "toString";
   lit "valueOf"; lit "__defineGetter__"; lit "__defineSetter__";
   lit "__lookupGetter__"; lit "__lookupSetter__"; lit "__proto__"].

(** [let moduleUrl = submodules[item.path]], up to the call of
    [moduleUrl.indexOf], which fails on an inherited member. *)
Definition lookup_submodule (subs : gmap str str) (p : str)
    : Res (option str) :=
  match subs !! p with
  | Some u => Ok (Some u)
  | None =>
      if existsb (str_eqb p) Object_prototype_keys
      then Throw TypeError_not_a_string
      else Ok None
  end.

(** The three chained [replace] calls on a GitHub submodule URL. *)
Definition normalize_module_url (h : Host) (moduleUrl : str) : str :=
  strip_dot_git
    (replace (lit "github.com:") (lit "github.com/")
       (replace_git_scheme (location_protocol h ++ lit "//") moduleUrl)).

(** The text of a GitHub submodule: two links around [<span>@ </span>]. *)
Definition submodule_text (moduleUrl name : str) (sh : option str)
    : Res str :=
  match sh with
  | Some s =>
      Ok (qlit "<a href=`" ++ moduleUrl ++ qlit "` class=`jstree-anchor`>"
          ++ name ++ lit "</a>"
          ++ lit "<span>@ </span>"
          ++ qlit "<a href=`" ++ moduleUrl ++ lit "/tree/" ++ s
          ++ qlit "` class=`jstree-anchor`>" ++ substr s 0 7 ++ lit "</a>")
  | None => Throw TypeError_no_sha
  end.

(** The [else if (type === 'commit')] branch: the text and the [a_attr]
    of the entry, given the text and the [a_attr] it has so far. *)
Definition submodule_branch (h : Host) (subs : gmap str str) (p name : str)
    (sh : option str) (text0 : str) (attr0 : option Attr)
    : Res (str * option Attr) :=
  found ← lookup_submodule subs p;
  match found with
  | Some moduleUrl =>
      if truthy_str moduleUrl then
        if truthy_num (bitnot (indexOf moduleUrl (lit "github.com"))) then
          let moduleUrl' := normalize_module_url h moduleUrl in
          txt ← submodule_text moduleUrl' name sh;
          Ok (txt, Some {| href := moduleUrl';
                           data_download_url := None;
                           data_download_filename := None |})
        else
          Ok (text0, Some {| href := moduleUrl;
                             data_download_url := None;
                             data_download_filename := None |})
      else Ok (text0, attr0)
  | None => Ok (text0, attr0)
  end.

(** The arguments of one call that the loop body reads. *)
Record Env : Type := {
  host : Host;
  opts : Opts;
  branch_enc : str;
  transform : option (Item -> Item);
  submodules : gmap str str
}.

(** [if (transform) transform(item)] *)
Definition transformed (e : Env) (item0 : Item) : Item :=
  match transform e with
  | Some f => f item0
  | None => item0
  end.

(** [item.path] once the path of the lazily loaded node is put in
    front of it. *)
Definition final_path (e : Env) (item0 : Item) : str :=
  prefixed_path (node (opts e)) (path (transformed e item0)).

(** [node] is given: the load is the lazy load of one node. *)
Definition lazy (e : Env) : bool := bool_decide (is_Some (node (opts e))).

(** The key of the bucket the entry is pushed to: [''] in a lazy load,
    [path.substring(0, index)] otherwise. *)
Definition bucket_key (e : Env) (p : str) : str :=
  if lazy e then [] else substring p 0 (lastIndexOf p (lit "/")).

(** [if (type === 'tree') { if (node) item.children = true; else
    folders[item.path] = item.children = []; }]: the store and the
    [children] of the entry after it. *)
Definition children_step (e : Env) (st1 : State) (item1 : Item) (p : str)
    : State * Children :=
  match type item1 with
  | tree =>
      if lazy e then (st1, LazyChildren)
      else let '(s, r) := register_bucket st1 p in (s, ChildArray r)
  | _ => (st1, children item1)
  end.

(** The [if (type === 'tree' || type === 'blob') ... else if (type ===
    'commit') ...] statement: the store after it, and the [children],
    [text] and [a_attr] of the entry after it. *)
Definition type_branch (e : Env) (st1 : State) (item1 : Item)
    (p name text1 : str) : Res (State * Children * str * option Attr) :=
  let '(st2, ch) := children_step e st1 item1 p in
  match type item1 with
  | tree | blob =>
      a ← item_a_attr (repo (opts e)) (type item1) p name (branch_enc e)
            (url item1) (patch item1);
      Ok (st2, ch, text1, Some a)
  | commit =>
      '(txt, attr) ← submodule_branch (host e) (submodules e) p name
                       (sha item1) text1 (a_attr item1);
      Ok (st2, ch, txt, attr)
  end.

(** The entry as the loop body leaves it. *)
Definition rendered (e : Env) (item1 : Item) (p name : str)
    (ch : Children) (txt : str) (attr : option Attr) : Item :=
  {| path := p; type := type item1; sha := sha item1; url := url item1;
     patch := patch item1;
     id := Some (NODE_PREFIX (host e) ++ p);
     text := Some txt;
     icon := Some (item_icon (host e) (type item1) name);
     children := ch;
     a_attr := attr |}.

(** [tree[k] = item]: the entries are mutated in place. *)
Definition write_item (st : State) (k : nat) (it : Item) : State :=
  {| items := <[k := it]> (items st);
     arrays := arrays st;
     folders := folders st |}.

(** The body of the [for] loop for the entry [item0 = tree[k]]. *)
Definition process_item (e : Env) (st : State) (k : nat) (item0 : Item)
    : Res State :=
  let item1 := transformed e item0 in
  let p := final_path e item0 in
  let name := item_name p in
  let text1 := patched_text name (patch item1) in
  st1 ← push_item st (bucket_key e p) k;
  '(st2, ch, txt, attr) ← type_branch e st1 item1 p name text1;
  Ok (write_item st2 k (rendered e item1 p name ch txt attr)).

(* ================================================================== *)
(** ** The chunked loop and the whole method *)
(* ================================================================== *)

(** How one run of the [for] loop of [nextChunk] ends: the callback has
    been called on [folders['']], or the loop has used up its chunk and
    the next call of [nextChunk] is handed to [setTimeout]. *)
Inductive ChunkEnd : Type :=
  | Delivered (root : option nat) (st : State)
  | Scheduled (st : State).

(** [cb(null, folders[''])] *)
Definition deliver (st : State) : ChunkEnd :=
  Delivered (folders st !! []) st.

(** The [for] loop of [nextChunk(iteration)] from [i] on, with
    [remaining = CHUNK_SIZE - i] rounds left. *)
Fixpoint chunk_loop (e : Env) (CHUNK_SIZE iteration : nat)
    (remaining i : nat) (st : State) : Res ChunkEnd :=
  match remaining with
  | O => Ok (Scheduled st)
  | S remaining' =>
      let k := (iteration * CHUNK_SIZE + i)%nat in
      match items st !! k with
      | None => Ok (deliver st)
      | Some item =>
          st' ← process_item e st k item;
          chunk_loop e CHUNK_SIZE iteration remaining' (S i) st'
      end
  end.

(** [nextChunk(iteration)] followed by the calls it schedules through
    [setTimeout]; the chunk size is an argument so that it can be varied,
    [fuel] bounds the number of scheduled calls, and [None] means that
    the bound was reached. *)
Fixpoint nextChunk (e : Env) (CHUNK_SIZE : nat) (fuel : nat)
    (iteration : nat) (st : State) : option (Res Outcome) :=
  match chunk_loop e CHUNK_SIZE iteration CHUNK_SIZE 0 st with
  | Throw x => Some (Throw x)
  | Ok (Delivered r st') => Some (Ok (CbTree r st'))
  | Ok (Scheduled st') =>
      match fuel with
      | O => None
      | S fuel' => nextChunk e CHUNK_SIZE fuel' (S iteration) st'
      end
  end.

(** [const CHUNK_SIZE = 300] *)
Definition CHUNK_SIZE : nat := 300.

Definition set_encodedBranch (o : Opts) (b : str) : Opts :=
  {| opts_path := opts_path o; repo := repo o; node := node o;
     encodedBranch := Some b |}.

(** The method up to the first call of [nextChunk]: the encoded branch
    is resolved, the tree and the submodules are fetched; the result is
    the error a fetch has reported, or the arguments of the loop. *)
Definition prepare (h : Host) (o : Opts) (tr : option (Item -> Item))
    : Res (ErrorInfo + Env * list Item) :=
  b ← resolve_branch o;
  let o' := set_encodedBranch o b in
  match _getTree h (opts_path o') o' with
  | inl err => Ok (inl err)
  | inr t =>
      match _getSubmodules h t o' with
      | inl err => Ok (inl err)
      | inr subs =>
          Ok (inr ({| host := h; opts := o'; branch_enc := b;
                      transform := tr;
                      submodules := default ∅ subs |}, t))
      end
  end.

(** The body of [_loadCodeTreeInternal] for a chunk size [n]; the first
    call [nextChunk()] gets as many scheduled calls as the tree has
    entries, which is more than it needs when [n] is positive. *)
Definition loadCodeTree_chunked (n : nat) (h : Host) (o : Opts)
    (tr : option (Item -> Item)) : option (Res Outcome) :=
  match prepare h o tr with
  | Throw x => Some (Throw x)
  | Ok (inl err) => Some (Ok (CbError err))
  | Ok (inr (e, t)) => nextChunk e n (length t) 0 (init_state t)
  end.

(** [_loadCodeTreeInternal(opts, transform, cb)] *)
Definition _loadCodeTreeInternal (h : Host) (o : Opts)
    (tr : option (Item -> Item)) : option (Res Outcome) :=
  loadCodeTree_chunked CHUNK_SIZE h o tr.

(* ================================================================== *)
(** ** The error handler *)
(* ================================================================== *)

(** The message of the 404 case and of the generic 403 case (the source
    has the same two-line literal in both places). *)
Definition token_message : str :=
  lit "Accessing private repositories requires a GitHub access token. "
  ++ qlit "Please go to <a class=`settings-btn` href=`javascript:void(0)`>Settings</a> and enter a token.".

(** [_handleError(settings, jqXHR, cb)]: the object given to [cb]. *)
Definition _handleError (h : Host) (settings : Settings) (x : jqXHR)
    : ErrorInfo :=
  let '(err, msg) :=
    if status x =? 0 then
      (lit "Connection error",
       lit "Cannot connect to website.
          If your network connection to this website is fine, maybe there is an outage of the API.
          Please try again later.")
    else if status x =? 409 then
      (lit "Empty repository", lit "This repository is empty.")
    else if status x =? 206 then
      (lit "Repo too large",
       lit "This repository is too large to load in a single request. ")
    else if status x =? 401 then
      (lit "Invalid token",
       getInvalidTokenMessage h (status x) (headers settings))
    else if status x =? 404 then
      (lit "Private repository", token_message)
    else if status x =? 403 then
      if truthy_num
           (bitnot (indexOf (responseHeaders x)
                      (lit "X-RateLimit-Remaining: 0")))
      then
        (lit "API limit exceeded",
         qlit "You have exceeded the <a href=`https://developer.github.com/v3/#rate-limiting`>GitHub API rate limit</a>. "
         ++ lit "To continue using Octotree, you need to provide a GitHub access token. "
         ++ qlit "Please go to <a class=`settings-btn` href=`javascript:void(0)`>Settings</a> and enter a token.")
      else (lit "Forbidden", token_message)
    else (statusText x, statusText x) in
  {| error := lit "Error: " ++ err; message := msg |}.

End Adapter.

(* ================================================================== *)
(** ** Specification-side notions *)
(* ================================================================== *)

Module Spec.
Import JS Adapter.

(** [pat] occurs in [s]. *)
Definition occurs (pat s : str) : Prop :=
  exists pre post, s = pre ++ pat ++ post.

(** The same as a test: [pat] starts one of the suffixes of [s]. *)
Fixpoint occursb (pat s : str) : bool :=
  startsWith pat s ||
  match s with
  | [] => false
  | _ :: s' => occursb pat s'
  end.










(** The status codes that have a row of their own. *)
Definition mapped_statuses : list Z := [0; 409; 206; 401; 404; 403].

(** The entry at path [p] is a submodule hosted on GitHub: the map of
    submodules has a non-empty URL for it in which [github.com] occurs. *)
Definition github_submodule (e : Env) (p : str) : bool :=
  match submodules e !! p with
  | Some u => truthy_str u && occursb (lit "github.com") u
  | None => false
  end.

(** The characters a URL is written in: printable ASCII (RFC 3986
    allows a part of them). *)
Definition url_char (c : Z) : Prop := 32 <= c <= 126.

(** The badge of a removed entry: the word [removed] in red, with the
    previous path as its tooltip. *)
Definition removed_badge (prev : str) : str :=
  qlit "<span class=`text-red` title=`" ++ prev ++ qlit "`>removed</span>".

(** A link of the tree widget. *)
Definition anchor (target label : str) : str :=
  qlit "<a href=`" ++ target ++ qlit "` class=`jstree-anchor`>"
  ++ label ++ lit "</a>".

(** The loop body applied to the entries at the indices [ks], one
    after the other (an index without entry is passed over). *)
Fixpoint process_range (e : Env) (ks : list nat) (st : State) : Res State :=
  match ks with
  | [] => Ok st
  | k :: ks' =>
      match items st !! k with
      | Some item => st' ← process_item e st k item; process_range e ks' st'
      | None => process_range e ks' st
      end
  end.

(** The callback called on [folders['']]. *)
Definition deliver_tree (st : State) : Outcome :=
  CbTree (folders st !! []) st.

(** All entries of the tree [t] converted in one pass, from the first
    to the last, without any chunk. *)
Definition sequential_pass (e : Env) (t : list Item) : Res Outcome :=
  st ← process_range e (seq 0 (length t)) (init_state t);
  Ok (deliver_tree st).

(** The method with the sequential pass in the place of the chunked
    loop. *)
Definition load_sequential (h : Host) (o : Opts)
    (tr : option (Item -> Item)) : Res Outcome :=
  r ← prepare h o tr;
  match r with
  | inl err => Ok (CbError err)
  | inr (e, t) => sequential_pass e t
  end.

(** The key of the bucket of the parent directory of a path. *)
Definition parent_key (p : str) : str :=
  substring p 0 (lastIndexOf p (lit "/")).

(** Every entry of [t] lies at the root or in a directory whose own
    entry comes earlier in [t]. *)
Definition parents_first (e : Env) (t : list Item) : Prop :=
  forall k it, t !! k = Some it ->
    parent_key (final_path e it) = [] \/
    exists j d, (j < k)%nat /\ t !! j = Some d /\
      type (transformed e d) = tree /\
      final_path e d = parent_key (final_path e it).

(** The state of the store when the entries before [k] are processed:
    the arrays hold the indices below [k], each once, and each array in
    increasing order; [folders] refers to arrays that exist; the
    entries from [k] on are as they were received, and an entry before
    [k] has become the node of its path. *)
Record store_inv (e : Env) (t : list Item) (k : nat) (st : State)
    : Prop := {
  inv_length : length (items st) = length t;
  inv_perm : concat (arrays st) ≡ₚ seq 0 k;
  inv_order : Forall (fun l => l `sublist_of` seq 0 k) (arrays st);
  inv_refs : forall key r,
    folders st !! key = Some r -> (r < length (arrays st))%nat;
  inv_todo : forall j, (k <= j)%nat -> items st !! j = t !! j;
  inv_done : forall j it, (j < k)%nat -> t !! j = Some it ->
    exists node, items st !! j = Some node /\
      path node = final_path e it /\
      id node = Some (NODE_PREFIX (host e) ++ final_path e it)
}.

(** [folders] knows the root and the directories among the entries
    before [k]. *)
Definition folders_inv (e : Env) (t : list Item) (k : nat) (st : State)
    : Prop :=
  is_Some (folders st !! []) /\
  forall j d, (j < k)%nat -> t !! j = Some d ->
    type (transformed e d) = tree ->
    is_Some (folders st !! final_path e d).

End Spec.

(* ================================================================== *)
(** ** Concrete hosts and inputs, used to run the definitions *)
(* ================================================================== *)

Module Examples.
Import JS Adapter.

(** A host that serves the tree [t] and the submodule map [subs], with
    the page protocol [https:] and file icons switched off. *)
Definition host_of (t : list Item) (subs : gmap str str) : Host :=
  {| NODE_PREFIX := lit "octotree";
     store_icons := false;
     getClassWithColor := fun _ => None;
     location_protocol := lit "https:";
     getInvalidTokenMessage := fun _ _ => lit "The token is invalid.";
     _getTree := fun _ _ => inr t;
     _getSubmodules := fun _ _ => inr (Some subs) |}.

Definition host0 : Host := host_of [] ∅.

Definition settings0 : Settings := {| headers := [] |}.

Definition repo0 : Repo :=
  {| username := lit "owner"; reponame := lit "project";
     branch := lit "master"; pullNumber := None |}.

(** Options of a load of the entire tree. *)
Definition opts0 : Opts :=
  {| opts_path := []; repo := repo0; node := None; encodedBranch := None |}.



(** A response with status 500. *)
Definition response_500 : jqXHR :=
  {| status := 500; statusText := lit "Internal Server Error";
     responseHeaders := [] |}.

(** The environment of the loop for a host, options and submodules,
    with the branch [master] and no transform. *)
Definition env_of (h : Host) (o : Opts) (subs : gmap str str) : Env :=
  {| host := h; opts := o; branch_enc := lit "master";
     transform := None; submodules := subs |}.

(** The store after the loop body has run on entry [k], the store
    itself when the body throws. *)
Definition run_item (e : Env) (st : State) (k : nat) (it : Item) : State :=
  match process_item e st k it with
  | Ok st' => st'
  | Throw _ => st
  end.

(** The text of entry [k] after a load of the tree the host serves. *)
Definition loaded_text (h : Host) (o : Opts) (k : nat) : option str :=
  match _loadCodeTreeInternal h o None with
  | Some (Ok (CbTree _ st)) => items st !! k ≫= text
  | _ => None
  end.

(** The patch of a removed file that used to be [old/path.txt], with
    the given counts of additions and deletions. *)
Definition removed_patch (a d : option Z) : PatchInfo :=
  {| action := removed; previous := Some (lit "old/path.txt");
     filesChanged := None; additions := a; deletions := d;
     diffId := None |}.

Definition removed_file (a d : option Z) : Item :=
  entry (lit "README.md") blob None None (Some (removed_patch a d)).

(** A submodule entry and the map that gives its URL. *)
Definition vendor (pa : option PatchInfo) : Item :=
  entry (lit "vendor") commit (Some (lit "0123456789abcdef")) None pa.

Definition vendor_at (u : str) : gmap str str := {[ lit "vendor" := u ]}.

(** A file whose path has a space and a percent sign. *)
Definition odd_file : Item :=
  entry (lit "docs/a b/100%.txt") blob None None None.

(** The file after the two directories it lies in. *)
Definition odd_tree : list Item :=
  [entry (lit "docs") tree None None None;
   entry (lit "docs/a b") tree None None None;
   odd_file].

(** The store once the two directories are processed. *)
Definition odd_store : State :=
  run_item (env_of host0 opts0 ∅)
    (run_item (env_of host0 opts0 ∅) (init_state odd_tree) 0
       (entry (lit "docs") tree None None None))
    1 (entry (lit "docs/a b") tree None None None).

(** The environment and the final store of a load, for a host and
    options on which the load delivers a tree. *)
Definition loaded_env (h : Host) (o : Opts) : Env :=
  match prepare h o None with
  | Ok (inr (e, _)) => e
  | _ => env_of h o ∅
  end.

Definition loaded_store (h : Host) (o : Opts) : State :=
  match _loadCodeTreeInternal h o None with
  | Some (Ok (CbTree _ st)) => st
  | _ => init_state []
  end.

(** A file that comes before the entry of its directory. *)
Definition child_first : list Item :=
  [entry (lit "a/b") blob None None None;
   entry (lit "a") tree None None None].

End Examples.

(* ================================================================== *)
(** ** Tactics for the tests on code units *)
(* ================================================================== *)

Module Tactics.

(** Turns the boolean comparisons among the hypotheses into
    propositions. *)
Ltac zbool :=
  repeat match goal with
  | H : (_ <? _) = true |- _ => apply Z.ltb_lt in H
  | H : (_ <? _) = false |- _ => apply Z.ltb_ge in H
  | H : (_ <=? _) = true |- _ => apply Z.leb_le in H
  | H : (_ <=? _) = false |- _ => apply Z.leb_gt in H
  | H : (_ =? _) = true |- _ => apply Z.eqb_eq in H
  | H : (_ =? _) = false |- _ => apply Z.eqb_neq in H
  | H : (_ && _) = true |- _ => apply andb_true_iff in H as [? ?]
  | H : (_ && _) = false |- _ => apply andb_false_iff in H as [?|?]
  | H : (_ || _) = false |- _ => apply orb_false_iff in H as [? ?]
  | H : (_ || _) = true |- _ => apply orb_true_iff in H as [?|?]
  | H : negb _ = true |- _ => apply negb_true_iff in H
  | H : negb _ = false |- _ => apply negb_false_iff in H
  end.

Ltac arith := zbool; Z.div_mod_to_equations; lia.

(** Decides the test of the first [if] of the goal by arithmetic. *)
Ltac take_then :=
  match goal with
  | |- context [if ?b then _ else _] =>
      let E := fresh "E" in destruct b eqn:E; [|exfalso; arith]
  end.
Ltac take_else :=
  match goal with
  | |- context [if ?b then _ else _] =>
      let E := fresh "E" in destruct b eqn:E; [exfalso; arith|]
  end.

End Tactics.

(* ================================================================== *)
(** ** Further notions: the shape of the delivered tree *)
(* ================================================================== *)

Module SpecTree.
Import JS Adapter Spec.

(** The key of the bucket the [i]-th entry of [t] belongs to in a full
    load: the path of its parent directory. *)
Definition entry_key (e : Env) (t : list Item) (i : nat) : option str :=
  (fun it => parent_key (final_path e it)) <$> t !! i.

(** The indices below [n] of the entries that lie directly in the
    directory [key], in the order of the list. *)
Definition members (e : Env) (t : list Item) (key : str) (n : nat)
    : list nat :=
  filter (fun i => entry_key e t i = Some key) (seq 0 n).

(** No two directory entries of [t] have the same path. *)
Definition distinct_dirs (e : Env) (t : list Item) : Prop :=
  forall i j di dj,
    t !! i = Some di -> t !! j = Some dj ->
    type (transformed e di) = tree -> type (transformed e dj) = tree ->
    final_path e di = final_path e dj -> i = j.

(** No directory entry of [t] has the empty path. *)
Definition named_dirs (e : Env) (t : list Item) : Prop :=
  forall j d, t !! j = Some d -> type (transformed e d) = tree ->
    final_path e d <> [].

(** The buckets when the entries before [k] of a full load are
    processed: [folders] gives every registered directory its own array,
    that array holds the members of the directory, the registered keys
    are the root and the directories seen, the key of every processed
    entry is registered, and every directory seen refers to its array. *)
Record bucket_inv (e : Env) (t : list Item) (k : nat) (st : State)
    : Prop := {
  bk_members : forall key r, folders st !! key = Some r ->
    arrays st !! r = Some (members e t key k);
  bk_inj : forall key1 key2 r,
    folders st !! key1 = Some r -> folders st !! key2 = Some r ->
    key1 = key2;
  bk_keys : forall key, is_Some (folders st !! key) ->
    key = [] \/
    exists j d, (j < k)%nat /\ t !! j = Some d /\
      type (transformed e d) = tree /\ final_path e d = key;
  bk_done : forall i key, (i < k)%nat -> entry_key e t i = Some key ->
    is_Some (folders st !! key);
  bk_dirs : forall j d, (j < k)%nat -> t !! j = Some d ->
    type (transformed e d) = tree ->
    exists nd r, items st !! j = Some nd /\
      children nd = ChildArray r /\
      folders st !! final_path e d = Some r
}.

End SpecTree.

Module SpecLazy.
Import JS Adapter Spec.

(** The store of a lazy load when the entries before [k] are
    processed: one array with the indices below [k], [folders] as it
    started, the lazy marker on every directory, and the [children] the
    other entries came with. *)
Definition lazy_inv (e : Env) (t : list Item) (k : nat) (st : State)
    : Prop :=
  arrays st = [seq 0 k] /\
  folders st = {[ [] := 0%nat ]} /\
  forall j d, (j < k)%nat -> t !! j = Some d ->
    exists nd, items st !! j = Some nd /\
      children nd
      = match type (transformed e d) with
        | tree => LazyChildren
        | _ => children (transformed e d)
        end.

End SpecLazy.

Module SpecFailure.
Import JS Adapter Spec.

(** The entry links to a diff of a pull request: it has a patch with a
    numeric [diffId]. *)
Definition diff_link (pa : option PatchInfo) : bool :=
  match pa with
  | Some q => bool_decide (is_Some (diffId q))
  | None => false
  end.

(** The path is the name of a member of [Object.prototype]. *)
Definition inherited_key (p : str) : bool :=
  existsb (str_eqb p) Object_prototype_keys.

(** What the statement on the type of the entry needs in order not to
    throw: a file or directory links to a diff or has a path without
    lone surrogate; a submodule with a URL on GitHub has a sha; a
    submodule without URL has a path that is no inherited name. *)
Definition renders (e : Env) (it : Item) : Prop :=
  match type (transformed e it) with
  | commit =>
      match submodules e !! final_path e it with
      | Some u =>
          github_submodule e (final_path e it) = true ->
          is_Some (sha (transformed e it))
      | None => inherited_key (final_path e it) = false
      end
  | _ =>
      diff_link (patch (transformed e it)) = true \/
      isWellFormed (final_path e it) = true
  end.

End SpecFailure.

Module SpecBranch.
Import JS Adapter Spec.

(** The options for the same repository under another branch name. *)
Definition with_branch (o : Opts) (b : str) : Opts :=
  {| opts_path := opts_path o;
     repo := {| username := username (repo o);
                reponame := reponame (repo o);
                branch := b;
                pullNumber := pullNumber (repo o) |};
     node := node o;
     encodedBranch := encodedBranch o |}.

(** What follows a percent sign does not start with two hexadecimal
    digits. *)
Definition no_hex_pair (rest : str) : Prop :=
  match rest with
  | h :: l :: _ => octet h l = None
  | _ => True
  end.

End SpecBranch.

Module Download.
Import JS Adapter.

(** [s.replace(/\/blob\/|\/src\//, '/raw/')]: the leftmost position at
    which [/blob/] or [/src/] starts is rewritten to [/raw/]; the
    pattern has no [g] flag, so the rest is copied. *)
Fixpoint replace_blob_or_src (s : str) : str :=
  if startsWith (lit "/blob/") s then
    lit "/raw/" ++ drop (length (lit "/blob/")) s
  else if startsWith (lit "/src/") s then
    lit "/raw/" ++ drop (length (lit "/src/")) s
  else
    match s with
    | [] => []
    | c :: s' => c :: replace_blob_or_src s'
    end.

(** The attributes of the [a] element that [downloadFile] creates and
    clicks. *)
Record Link := { link_href : str; link_target : str }.

(** [downloadFile(path, fileName)]; [fileName] is not used by the
    method. *)
Definition downloadFile (path fileName : str) : Link :=
  {| link_href := replace_blob_or_src path;
     link_target := lit "_blank" |}.

End Download.

Module SpecData.
Import JS Adapter Spec.

(** The node [nd] carries what the hosting API (and the transform)
    said of the entry [d]: its type, sha, url and patch; and the icon
    class that goes with its type and name. *)
Definition keeps_data (e : Env) (d nd : Item) : Prop :=
  type nd = type (transformed e d) /\
  sha nd = sha (transformed e d) /\
  url nd = url (transformed e d) /\
  patch nd = patch (transformed e d) /\
  icon nd = Some (item_icon (host e) (type (transformed e d))
                    (item_name (final_path e d))) /\
  is_Some (text nd).

(** The id the loop gives the entry of path [p]. *)
Definition node_id (e : Env) (p : str) : option str :=
  Some (NODE_PREFIX (host e) ++ p).

End SpecData.

Module ExamplesMore.
Import JS Adapter Spec SpecBranch Examples.

(** Options of the lazy load of the node [docs]. *)
Definition opts_lazy : Opts :=
  {| opts_path := lit "docs"; repo := repo0;
     node := Some {| node_path := Some (lit "docs") |};
     encodedBranch := None |}.

(** What the host reports for the node [docs]: a directory and a
    file, with paths relative to the node. *)
Definition lazy_list : list Item :=
  [entry (lit "a b") tree None None None;
   entry (lit "100%.txt") blob None None None].

(** Options for a branch whose name is percent-encoded already, and
    for a branch whose name has a percent sign that starts no escape. *)
Definition opts_encoded : Opts := with_branch opts0 (lit "feature%2Fa%20b").

Definition opts_percent : Opts := with_branch opts0 (lit "100%done").


(** Four files at the root: two full chunks of size two. *)
Definition flat_four : list Item :=
  [entry (lit "a") blob None None None;
   entry (lit "b") blob None None None;
   entry (lit "c") blob None None None;
   entry (lit "d") blob None None None].

(** The store after the loop body has run on the first two of them. *)
Definition first_two_done : State :=
  run_item (env_of host0 opts0 ∅)
    (run_item (env_of host0 opts0 ∅) (init_state flat_four) 0
       (entry (lit "a") blob None None None))
    1 (entry (lit "b") blob None None None).

End ExamplesMore.

(* ================================================================== *)
(** ** Properties *)
(* ================================================================== *)

Module JSFacts.
Import JS Spec.

Lemma startsWith_app (pat post : str) : startsWith pat (pat ++ post) = true.
Proof.
  induction pat as [|p pat IH]; simpl; [done|].
  by rewrite Z.eqb_refl, IH.
Qed.

Lemma startsWith_inv (pat s : str) :
  startsWith pat s = true -> exists post, s = pat ++ post.
Proof.
  revert s. induction pat as [|p pat IH]; intros s H; simpl in *.
  - by exists s.
  - destruct s as [|c s]; [done|].
    apply andb_true_iff in H as [Hc Hs]. apply Z.eqb_eq in Hc as ->.
    destruct (IH _ Hs) as [post ->]. by exists post.
Qed.

Lemma occursb_occurs (pat s : str) : occursb pat s = true <-> occurs pat s.
Proof.
  induction s as [|c s IH]; simpl.
  - rewrite orb_false_r. split.
    + intros H. destruct (startsWith_inv _ _ H) as [post E].
      by exists [], post.
    + intros (pre & post & E). symmetry in E.
      apply app_eq_nil in E as [-> E]. apply app_eq_nil in E as [-> ->]. done.
  - rewrite orb_true_iff, IH. split.
    + intros [H | (pre & post & ->)].
      * destruct (startsWith_inv _ _ H) as [post E]. by exists [], post.
      * by exists (c :: pre), post.
    + intros (pre & post & E). destruct pre as [|c' pre]; simpl in E.
      * left. rewrite E. apply startsWith_app.
      * right. injection E as -> ->. by exists pre, post.
Qed.

Lemma indexOf_from_spec (pat s : str) (i : Z) :
  0 <= i ->
  (occursb pat s = true -> i <= indexOf_from pat s i) /\
  (occursb pat s = false -> indexOf_from pat s i = -1).
Proof.
  revert i. induction s as [|c s IH]; intros i Hi; simpl.
  - destruct (startsWith pat []); simpl; split; (done || lia).
  - destruct (startsWith pat (c :: s)); simpl; [split; (done || lia)|].
    destruct (IH (i + 1)) as [H1 H2]; [lia|]. split; [|done].
    intros H. specialize (H1 H). lia.
Qed.

(** [~s.indexOf(pat)] is truthy exactly when [pat] occurs in [s]. *)
Lemma indexOf_truthy (s pat : str) :
  truthy_num (bitnot (indexOf s pat)) = occursb pat s.
Proof.
  unfold truthy_num, bitnot, indexOf.
  destruct (indexOf_from_spec pat s 0) as [H1 H2]; [lia|].
  destruct (occursb pat s).
  - specialize (H1 eq_refl). unfold Z.lnot.
    destruct (Z.eqb_spec (Z.pred (- indexOf_from pat s 0)) 0); [lia|done].
  - by rewrite H2.
Qed.

(** Unfolding a bind whose result is known to be a value. *)
Lemma bind_Ok_inv {A B : Type} (r : Res A) (k : A -> Res B) (b : B) :
  (r ≫= k) = Ok b -> exists a, r = Ok a /\ k a = Ok b.
Proof. destruct r as [a|x]; simpl; [eauto | discriminate]. Qed.

End JSFacts.

Module UriFacts.
Import JS Adapter Spec Tactics JSFacts.

Lemma hexval_hexdigit (d : Z) : 0 <= d < 16 -> hexval (hexdigit d) = Some d.
Proof.
  intros H. unfold hexval, hexdigit.
  destruct (Z.ltb_spec d 10).
  - replace ((48 <=? 48 + d) && (48 + d <=? 57)) with true
      by (symmetry; apply andb_true_iff; split; apply Z.leb_le; lia).
    f_equal. lia.
  - replace ((48 <=? 55 + d) && (55 + d <=? 57)) with false
      by (symmetry; apply andb_false_iff; right; apply Z.leb_gt; lia).
    replace ((65 <=? 55 + d) && (55 + d <=? 70)) with true
      by (symmetry; apply andb_true_iff; split; apply Z.leb_le; lia).
    f_equal. lia.
Qed.

Lemma octet_pct (b : Z) :
  0 <= b < 256 -> octet (hexdigit (b / 16)) (hexdigit (b mod 16)) = Some b.
Proof.
  intros H. unfold octet.
  rewrite !hexval_hexdigit by (Z.div_mod_to_equations; lia).
  f_equal. Z.div_mod_to_equations. lia.
Qed.

Lemma continuation_pct (b : Z) :
  128 <= b < 192 ->
  continuation 37 (hexdigit (b / 16)) (hexdigit (b mod 16)) = Some (b - 128).
Proof.
  intros H. unfold continuation. rewrite octet_pct by lia. simpl.
  replace ((128 <=? b) && (b <? 192)) with true; [done|].
  symmetry. apply andb_true_iff. split; [apply Z.leb_le|apply Z.ltb_lt]; lia.
Qed.

Lemma decode_cons (c : Z) (r : str) :
  c <> 37 ->
  decodeURIComponent (c :: r) = (r' ← decodeURIComponent r; Ok (c :: r')).
Proof.
  intros H. simpl. destruct (Z.eqb_spec c 37); [done|]. reflexivity.
Qed.

Lemma decode_pct_1 (b : Z) (r : str) :
  0 <= b < 128 ->
  decodeURIComponent (pct b ++ r)
  = (r' ← decodeURIComponent r; Ok (b :: r')).
Proof.
  intros H. unfold pct. cbn [app decodeURIComponent].
  change (37 =? 37) with true. cbn [negb].
  rewrite octet_pct by lia.
  destruct (Z.ltb_spec b 128); [reflexivity|lia].
Qed.

Lemma decode_utf8 (v : Z) (r : str) :
  0 <= v <= 1114111 -> ~ (55296 <= v <= 57343) ->
  decodeURIComponent (flat_map pct (utf8 v) ++ r)
  = (r' ← decodeURIComponent r; Ok (units v ++ r')).
Proof.
  intros Hv Hs. unfold utf8.
  destruct (Z.ltb_spec v 128); [|destruct (Z.ltb_spec v 2048);
    [|destruct (Z.ltb_spec v 65536)]].
  - cbn [flat_map]. rewrite app_nil_r, decode_pct_1 by lia.
    unfold units. by take_then.
  - unfold pct. cbn [flat_map app decodeURIComponent].
    change (37 =? 37) with true. cbn [negb].
    rewrite octet_pct by arith.
    take_else. take_else. take_then.
    rewrite continuation_pct by arith.
    cbv zeta. take_then.
    replace ((192 + v / 64 - 192) * 64 + (128 + v mod 64 - 128)) with v
      by arith.
    reflexivity.
  - unfold pct. cbn [flat_map app decodeURIComponent].
    change (37 =? 37) with true. cbn [negb].
    rewrite octet_pct by arith.
    take_else. take_else. take_else. take_then.
    rewrite !continuation_pct by arith.
    cbv zeta. take_then.
    replace ((224 + v / 4096 - 224) * 4096
             + (128 + (v / 64) mod 64 - 128) * 64 + (128 + v mod 64 - 128))
      with v by arith.
    reflexivity.
  - unfold pct. cbn [flat_map app decodeURIComponent].
    change (37 =? 37) with true. cbn [negb].
    rewrite octet_pct by arith.
    take_else. take_else. take_else. take_else. take_then.
    rewrite !continuation_pct by arith.
    cbv zeta. take_then.
    replace ((240 + v / 262144 - 240) * 262144
             + (128 + (v / 4096) mod 64 - 128) * 4096
             + (128 + (v / 64) mod 64 - 128) * 64 + (128 + v mod 64 - 128))
      with v by arith.
    reflexivity.
Qed.

Lemma unreserved_range (c : Z) :
  unreserved c = true ->
  c <> 37 /\ c <> 47 /\ 33 <= c <= 126.
Proof.
  unfold unreserved. simpl existsb. intros H. zbool; lia.
Qed.

Lemma surrogate_pair_units (hi lo : Z) :
  is_high_surrogate hi = true -> is_low_surrogate lo = true ->
  65536 <= pair_code_point hi lo <= 1114111 /\
  units (pair_code_point hi lo) = [hi; lo].
Proof.
  unfold is_high_surrogate, is_low_surrogate, pair_code_point, units.
  intros H1 H2. zbool. split; [lia|].
  take_else. f_equal; [|f_equal]; arith.
Qed.

Lemma units_code_unit (c : Z) : code_unit c -> units c = [c].
Proof. unfold code_unit, units. intros H. by take_then. Qed.

Lemma encode_decode_below (n : nat) (s e : str) :
  (length s < n)%nat -> Forall code_unit s ->
  encodeURIComponent s = Ok e -> decodeURIComponent e = Ok s.
Proof.
  revert s e. induction n as [|n IH]; intros s e Hn Hs H; [lia|].
  destruct s as [|c s']; simpl in H.
  { injection H as <-. reflexivity. }
  apply Forall_cons in Hs as [Hc Hs']. simpl in Hn.
  destruct (unreserved c) eqn:U.
  { apply bind_Ok_inv in H as (r & Hr & [= <-]).
    rewrite decode_cons by (apply unreserved_range in U; tauto).
    rewrite (IH s' r) by (done || lia). reflexivity. }
  destruct (is_low_surrogate c) eqn:L; [discriminate|].
  destruct (is_high_surrogate c) eqn:Hh.
  - destruct s' as [|d s'']; [discriminate|].
    destruct (is_low_surrogate d) eqn:Ld; [|discriminate].
    apply bind_Ok_inv in H as (r & Hr & [= <-]).
    apply Forall_cons in Hs' as [_ Hs'']. simpl in Hn.
    destruct (surrogate_pair_units c d Hh Ld) as [Hrange Hunits].
    rewrite decode_utf8 by lia.
    rewrite (IH s'' r) by (done || lia). simpl. by rewrite Hunits.
  - apply bind_Ok_inv in H as (r & Hr & [= <-]).
    unfold code_unit in Hc.
    unfold is_low_surrogate in L. unfold is_high_surrogate in Hh.
    rewrite decode_utf8 by (zbool; lia).
    rewrite (IH s' r) by (done || lia). simpl.
    by rewrite units_code_unit.
Qed.

(** Decoding what [encodeURIComponent] has produced gives the string
    back. *)
Lemma encode_decode (s e : str) :
  Forall code_unit s ->
  encodeURIComponent s = Ok e -> decodeURIComponent e = Ok s.
Proof. apply (encode_decode_below (S (length s))). lia. Qed.

Lemma unreserved_not_surrogate (c : Z) :
  unreserved c = true ->
  is_low_surrogate c = false /\ is_high_surrogate c = false.
Proof.
  intros U. apply unreserved_range in U as (_ & _ & U).
  unfold is_low_surrogate, is_high_surrogate.
  split; apply andb_false_iff; left; apply Z.leb_gt; lia.
Qed.

(** [encodeURIComponent] succeeds on a string without lone surrogate. *)
Lemma encode_wellformed_below (n : nat) (s : str) :
  (length s < n)%nat -> isWellFormed s = true ->
  exists e, encodeURIComponent s = Ok e.
Proof.
  revert s. induction n as [|n IH]; intros s Hn H; [lia|].
  destruct s as [|c s']; simpl in *; [eauto|].
  destruct (unreserved c) eqn:U.
  { destruct (unreserved_not_surrogate c U) as [L Hh].
    rewrite L, Hh in H. destruct (IH s') as [r ->]; [lia|done|].
    simpl. eauto. }
  destruct (is_low_surrogate c); [discriminate|].
  destruct (is_high_surrogate c).
  - destruct s' as [|d s'']; [discriminate|]. simpl in Hn.
    apply andb_true_iff in H as [-> H].
    destruct (IH s'') as [r ->]; [lia|done|]. simpl. eauto.
  - destruct (IH s') as [r ->]; [lia|done|]. simpl. eauto.
Qed.

Lemma encode_wellformed (s : str) :
  isWellFormed s = true -> exists e, encodeURIComponent s = Ok e.
Proof. apply (encode_wellformed_below (S (length s))). lia. Qed.

Lemma hexdigit_not_slash (d : Z) : 0 <= d < 16 -> hexdigit d <> 47.
Proof. unfold hexdigit. intros H. destruct (d <? 10); lia. Qed.

Lemma pct_no_slash (b : Z) : 0 <= b < 256 -> Forall (fun x => x <> 47) (pct b).
Proof.
  intros H. unfold pct. repeat constructor; [lia| |];
    apply hexdigit_not_slash; Z.div_mod_to_equations; lia.
Qed.

Lemma utf8_octets (v : Z) :
  0 <= v <= 1114111 -> Forall (fun b => 0 <= b < 256) (utf8 v).
Proof.
  intros H. unfold utf8.
  repeat match goal with
  | |- context [if ?b then _ else _] => destruct b eqn:?
  end; repeat constructor; arith.
Qed.

Lemma utf8_no_slash (v : Z) :
  0 <= v <= 1114111 -> Forall (fun x => x <> 47) (flat_map pct (utf8 v)).
Proof.
  intros H. apply utf8_octets in H.
  induction H as [|b l Hb _ IH]; [constructor|].
  cbn [flat_map]. apply Forall_app. split; [by apply pct_no_slash | exact IH].
Qed.

(** The result of [encodeURIComponent] has no slash. *)
Lemma encode_no_slash_below (n : nat) (s e : str) :
  (length s < n)%nat -> Forall code_unit s ->
  encodeURIComponent s = Ok e -> Forall (fun x => x <> 47) e.
Proof.
  revert s e. induction n as [|n IH]; intros s e Hn Hs H; [lia|].
  destruct s as [|c s']; simpl in H.
  { injection H as <-. constructor. }
  apply Forall_cons in Hs as [Hc Hs']. simpl in Hn.
  destruct (unreserved c) eqn:U.
  { apply bind_Ok_inv in H as (r & Hr & [= <-]).
    constructor; [apply unreserved_range in U; tauto|].
    apply (IH s'); (done || lia). }
  destruct (is_low_surrogate c) eqn:L; [discriminate|].
  destruct (is_high_surrogate c) eqn:Hh.
  - destruct s' as [|d s'']; [discriminate|].
    destruct (is_low_surrogate d) eqn:Ld; [|discriminate].
    apply bind_Ok_inv in H as (r & Hr & [= <-]).
    apply Forall_cons in Hs' as [_ Hs'']. simpl in Hn.
    destruct (surrogate_pair_units c d Hh Ld) as [Hrange _].
    apply Forall_app. split; [apply utf8_no_slash; lia|].
    apply (IH s''); (done || lia).
  - apply bind_Ok_inv in H as (r & Hr & [= <-]).
    unfold code_unit in Hc.
    apply Forall_app. split; [apply utf8_no_slash; lia|].
    apply (IH s'); (done || lia).
Qed.

Lemma encode_no_slash (s e : str) :
  Forall code_unit s ->
  encodeURIComponent s = Ok e -> Forall (fun x => x <> 47) e.
Proof. apply (encode_no_slash_below (S (length s))). lia. Qed.

Lemma split_nonempty (sep : Z) (s : str) : split sep s <> [].
Proof.
  induction s as [|c s IH]; simpl; [done|].
  destruct (c =? sep); [done|]. by destruct (split sep s).
Qed.

Lemma split_no_sep (sep : Z) (a : str) :
  Forall (fun x => x <> sep) a -> split sep a = [a].
Proof.
  induction 1 as [|c a Hc _ IH]; simpl; [done|].
  destruct (Z.eqb_spec c sep); [done|]. by rewrite IH.
Qed.

Lemma split_app_sep (sep : Z) (a r : str) :
  Forall (fun x => x <> sep) a ->
  split sep (a ++ sep :: r) = a :: split sep r.
Proof.
  induction 1 as [|c a Hc _ IH]; simpl.
  - by rewrite Z.eqb_refl.
  - destruct (Z.eqb_spec c sep); [done|]. by rewrite IH.
Qed.

(** Splitting what [join] has put together gives the segments back
    when no segment holds the separator. *)
Lemma split_join (sep : Z) (l : list str) :
  l <> [] -> Forall (Forall (fun x => x <> sep)) l ->
  split sep (join [sep] l) = l.
Proof.
  intros Hne H. induction H as [|a l Ha Hl IH]; [done|].
  destruct l as [|b l'].
  - simpl. by apply split_no_sep.
  - change (join [sep] (a :: b :: l')) with (a ++ sep :: join [sep] (b :: l')).
    rewrite split_app_sep by done. by rewrite IH.
Qed.

Lemma split_Forall (P : Z -> Prop) (sep : Z) (s : str) :
  Forall P s -> Forall (Forall P) (split sep s).
Proof.
  induction 1 as [|c s Hc Hs IH]; simpl.
  - repeat constructor.
  - destruct (c =? sep); [by repeat constructor|].
    destruct (split sep s) as [|seg segs]; [by repeat constructor|].
    apply Forall_cons in IH as [Hseg Hsegs].
    constructor; [by constructor | done].
Qed.

Lemma split_wellformed_below (n : nat) (s : str) :
  (length s < n)%nat -> isWellFormed s = true ->
  Forall (fun seg => isWellFormed seg = true) (split 47 s).
Proof.
  revert s. induction n as [|n IH]; intros s Hn H; [lia|].
  destruct s as [|c s']; [by repeat constructor|].
  simpl in Hn. cbn [isWellFormed] in H. cbn [split].
  destruct (is_low_surrogate c) eqn:L; [discriminate|].
  destruct (is_high_surrogate c) eqn:Hh.
  - destruct s' as [|d s'']; [discriminate|]. simpl in Hn.
    apply andb_true_iff in H as [Ld H].
    assert ((c =? 47) = false) as ->
      by (unfold is_high_surrogate in Hh; apply Z.eqb_neq; zbool; lia).
    cbn [split].
    assert ((d =? 47) = false) as ->
      by (unfold is_low_surrogate in Ld; apply Z.eqb_neq; zbool; lia).
    pose proof (IH s'' ltac:(lia) H) as IHs.
    pose proof (split_nonempty 47 s'') as Hne.
    destruct (split 47 s'') as [|seg segs]; [done|].
    apply Forall_cons in IHs as [Hseg Hsegs].
    constructor; [|done]. cbn [isWellFormed]. by rewrite L, Hh, Ld.
  - pose proof (IH s' ltac:(lia) H) as IHs.
    destruct (c =? 47); [constructor; done|].
    pose proof (split_nonempty 47 s') as Hne.
    destruct (split 47 s') as [|seg segs]; [done|].
    apply Forall_cons in IHs as [Hseg Hsegs].
    constructor; [|done]. cbn [isWellFormed]. by rewrite L, Hh.
Qed.

Lemma split_wellformed (s : str) :
  isWellFormed s = true ->
  Forall (fun seg => isWellFormed seg = true) (split 47 s).
Proof. apply (split_wellformed_below (S (length s))). lia. Qed.

Lemma mapM_Ok_Forall2 {A B : Type} (f : A -> Res B) (l : list A)
    (l' : list B) :
  mapM f l = Ok l' <-> Forall2 (fun x y => f x = Ok y) l l'.
Proof.
  revert l'. induction l as [|x l IH]; intros l'; simpl.
  - split; [by intros [= <-]; constructor | by inversion 1].
  - split.
    + intros H. apply bind_Ok_inv in H as (y & Hy & H).
      apply bind_Ok_inv in H as (ys & Hys & [= <-]).
      constructor; [done | by apply IH].
    + inversion 1 as [|? y ? ys Hy Hys]; subst.
      apply IH in Hys. by rewrite Hy, Hys.
Qed.

Lemma mapM_total {A B : Type} (f : A -> Res B) (l : list A) :
  Forall (fun x => exists y, f x = Ok y) l -> exists l', mapM f l = Ok l'.
Proof.
  induction 1 as [|x l [y Hy] _ [ys Hys]]; simpl; [eauto|].
  rewrite Hy, Hys. simpl. eauto.
Qed.

(** The encoded path: its segments are the encoded segments of the
    path, the slashes between them are the only slashes, and decoding
    the segments gives the segments of the path. *)
Lemma encoded_path_roundtrip (p : str) :
  Forall code_unit p -> isWellFormed p = true ->
  exists segs,
    mapM encodeURIComponent (split 47 p) = Ok segs /\
    encoded_path p = Ok (join (lit "/") segs) /\
    split 47 (join (lit "/") segs) = segs /\
    mapM decodeURIComponent (split 47 (join (lit "/") segs))
    = Ok (split 47 p).
Proof.
  intros Hcu Hwf.
  destruct (mapM_total encodeURIComponent (split 47 p)) as [segs Hsegs].
  { eapply Forall_impl; [by apply split_wellformed|].
    intros seg. apply encode_wellformed. }
  exists segs. split; [done|]. unfold encoded_path. rewrite Hsegs.
  split; [done|].
  pose proof (proj1 (mapM_Ok_Forall2 _ _ _) Hsegs) as H2.
  pose proof (split_Forall code_unit 47 p Hcu) as Hcus.
  assert (split 47 (join (lit "/") segs) = segs) as Hsplit.
  { apply (split_join 47).
    - intros ->. inversion H2 as [E|]. by apply (split_nonempty 47 p).
    - clear Hsegs. induction H2 as [|x y l l' Hxy _ IH]; [constructor|].
      apply Forall_cons in Hcus as [Hx Hl].
      constructor; [by eapply encode_no_slash | by apply IH]. }
  split; [done|]. rewrite Hsplit. apply mapM_Ok_Forall2.
  clear Hsegs Hsplit. induction H2 as [|x y l l' Hxy _ IH]; [constructor|].
  apply Forall_cons in Hcus as [Hx Hl].
  constructor; [by eapply encode_decode | by apply IH].
Qed.

End UriFacts.

Module ErrorHandler.
Import JS Adapter Spec Examples JSFacts.




(** C4, as stated, fails: for status 500 the [error] field is the status
    text with [Error: ] in front of it, not the status text itself. *)
Lemma handleError_fallback_counterexample :
  error (_handleError host0 settings0 response_500)
  = lit "Error: Internal Server Error"
  /\ statusText response_500 = lit "Internal Server Error"
  /\ error (_handleError host0 settings0 response_500)
     <> statusText response_500.
Proof. repeat split; vm_compute; discriminate. Qed.

(** C4, amended. For every status outside 0, 409, 206, 401, 404 and 403
    the [message] field is the raw status text and the [error] field is
    the raw status text after the prefix [Error: ]. *)
Theorem handleError_fallback (h : Host) (settings : Settings) (x : jqXHR) :
  ~ In (status x) mapped_statuses ->
  error (_handleError h settings x) = lit "Error: " ++ statusText x /\
  message (_handleError h settings x) = statusText x.
Proof.
  intros H. unfold _handleError.
  repeat match goal with
  | |- context [status x =? ?c] =>
      destruct (Z.eqb_spec (status x) c) as [E|_];
      [exfalso; apply H; rewrite E; simpl; tauto|]
  end.
  split; reflexivity.
Qed.

Lemma handleError_fallback_witness :
  error (_handleError host0 settings0 response_500)
  = lit "Error: " ++ statusText response_500 /\
  message (_handleError host0 settings0 response_500)
  = statusText response_500.
Proof.
  apply handleError_fallback. simpl. lia.
Defined.

(** C5. For status 206 the handler gives the error text
    [Error: Repo too large] and a message that is the first sentence
    only: the advice to uncheck the setting is not part of it. *)
Theorem handleError_206_message (h : Host) (settings : Settings)
    (txt hs : str) :
  error (_handleError h settings
           {| status := 206; statusText := txt; responseHeaders := hs |})
  = lit "Error: Repo too large" /\
  message (_handleError h settings
             {| status := 206; statusText := txt; responseHeaders := hs |})
  = lit "This repository is too large to load in a single request. " /\
  occursb (lit "uncheck")
    (message (_handleError h settings
                {| status := 206; statusText := txt; responseHeaders := hs |}))
  = false.
Proof. repeat split. Qed.

End ErrorHandler.

Module RenderFacts.
Import JS Adapter Spec Examples JSFacts.

Lemma push_item_inv (st st1 : State) (key : str) (k : nat) :
  push_item st key k = Ok st1 ->
  exists r, folders st !! key = Some r /\
    st1 = {| items := items st;
             arrays := alter (fun l => l ++ [k]) r (arrays st);
             folders := folders st |}.
Proof.
  unfold push_item. destruct (folders st !! key) as [r|]; [|discriminate].
  intros [= <-]. eauto.
Qed.

(** The branch on the type leaves the store alone, or (for a directory
    of a full load) adds one empty array and registers it. *)
Lemma children_step_store (e : Env) (st1 : State) (it : Item) (p : str) :
  (type it <> tree /\ children_step e st1 it p = (st1, children it)) \/
  (type it = tree /\ lazy e = true /\
   children_step e st1 it p = (st1, LazyChildren)) \/
  (type it = tree /\ lazy e = false /\
   children_step e st1 it p
   = ((register_bucket st1 p).1, ChildArray (length (arrays st1)))).
Proof.
  unfold children_step. destruct (type it); auto.
  destruct (lazy e); auto.
Qed.

Lemma type_branch_store (e : Env) (st1 st2 : State) (it : Item)
    (p name text1 txt : str) (ch : Children) (attr : option Attr) :
  type_branch e st1 it p name text1 = Ok (st2, ch, txt, attr) ->
  ((type it = tree -> lazy e = true) /\ st2 = st1) \/
  (type it = tree /\ lazy e = false /\ st2 = (register_bucket st1 p).1
   /\ ch = ChildArray (length (arrays st1))).
Proof.
  unfold type_branch. intros H.
  assert (children_step e st1 it p = (st2, ch)) as Hc.
  { destruct (children_step e st1 it p) as [s c].
    destruct (type it).
    - by apply bind_Ok_inv in H as (a & _ & [= <- <- _ _]).
    - by apply bind_Ok_inv in H as (a & _ & [= <- <- _ _]).
    - by apply bind_Ok_inv in H as ([t a] & _ & [= <- <- _ _]). }
  destruct (children_step_store e st1 it p)
    as [(Ht & E)|[(Ht & Hl & E)|(Ht & Hl & E)]];
    rewrite E in Hc; injection Hc as <- <-; auto 6.
Qed.

Lemma process_item_inv (e : Env) (st st' : State) (k : nat) (item0 : Item) :
  process_item e st k item0 = Ok st' ->
  exists st1 st2 ch txt attr,
    push_item st (bucket_key e (final_path e item0)) k = Ok st1 /\
    type_branch e st1 (transformed e item0) (final_path e item0)
      (item_name (final_path e item0))
      (patched_text (item_name (final_path e item0))
         (patch (transformed e item0)))
    = Ok (st2, ch, txt, attr) /\
    st' = write_item st2 k
            (rendered e (transformed e item0) (final_path e item0)
               (item_name (final_path e item0)) ch txt attr).
Proof.
  unfold process_item. intros H.
  apply bind_Ok_inv in H as (st1 & H1 & H).
  apply bind_Ok_inv in H as ([[[st2 ch] txt] attr] & H2 & [= <-]).
  by exists st1, st2, ch, txt, attr.
Qed.

(** The processing of an entry changes no entry but the one
    processed, and keeps the number of entries. *)
Lemma process_item_items (e : Env) (st st' : State) (k : nat) (item0 : Item) :
  process_item e st k item0 = Ok st' ->
  exists node, items st' = <[k := node]> (items st) /\
    path node = final_path e item0 /\
    type node = type (transformed e item0) /\
    id node = Some (NODE_PREFIX (host e) ++ final_path e item0).
Proof.
  intros H. apply process_item_inv in H
    as (st1 & st2 & ch & txt & attr & H1 & H2 & ->).
  exists (rendered e (transformed e item0) (final_path e item0)
            (item_name (final_path e item0)) ch txt attr).
  split; [|repeat split; reflexivity]. simpl.
  apply push_item_inv in H1 as (r & _ & ->).
  apply type_branch_store in H2 as [[_ ->] | (_ & _ & -> & _)]; reflexivity.
Qed.

End RenderFacts.

Module UrlFacts.
Import JS Adapter Spec Examples JSFacts.

Lemma replace_absent (pat rep s : str) :
  occursb pat s = false -> replace pat rep s = s.
Proof.
  induction s as [|c s IH]; simpl; intros H;
    apply orb_false_iff in H as [H1 H2]; rewrite H1; [done|].
  by rewrite IH.
Qed.

Lemma replace_git_scheme_absent (rep s : str) :
  startsWith (lit "git://") s = false ->
  startsWith (lit "git@") s = false ->
  replace_git_scheme rep s = s.
Proof. unfold replace_git_scheme. by intros -> ->. Qed.

(** The pattern [/.git$/] removes the last four code units of a string
    that ends with [git] after a code unit the dot matches. *)
Lemma strip_dot_git_app (s : str) (c : Z) :
  line_terminator c = false -> strip_dot_git (s ++ c :: lit "git") = s.
Proof.
  intros Hc. unfold strip_dot_git.
  replace (length (s ++ c :: lit "git") - 4)%nat with (length s)
    by (rewrite length_app; simpl; lia).
  rewrite drop_app_length, take_app_length. simpl. by rewrite Hc.
Qed.

(** A line terminator before [git] keeps the pattern from matching. *)
Lemma strip_dot_git_line_terminator (s : str) (c : Z) :
  line_terminator c = true -> strip_dot_git (s ++ c :: lit "git") = s ++ c :: lit "git".
Proof.
  intros Hc. unfold strip_dot_git.
  replace (length (s ++ c :: lit "git") - 4)%nat with (length s)
    by (rewrite length_app; simpl; lia).
  rewrite drop_app_length. simpl. by rewrite Hc.
Qed.

End UrlFacts.

Module Rendering.
Import JS Adapter Spec Examples JSFacts RenderFacts UrlFacts.

Lemma submodule_branch_plain (h : Host) (subs : gmap str str) (p name : str)
    (sh : option str) (text0 txt : str) (attr0 attr : option Attr) :
  match subs !! p with
  | Some u => truthy_str u && occursb (lit "github.com") u
  | None => false
  end = false ->
  submodule_branch h subs p name sh text0 attr0 = Ok (txt, attr) ->
  txt = text0.
Proof.
  unfold submodule_branch, lookup_submodule.
  destruct (subs !! p) as [u|].
  - simpl. rewrite indexOf_truthy. destruct (truthy_str u); simpl.
    + intros ->. by intros [= <- _].
    + by intros _ [= <- _].
  - intros _. destruct (existsb (str_eqb p) Object_prototype_keys); simpl;
      [discriminate|].
    by intros [= <- _].
Qed.

(** Unless the entry is rendered as a GitHub submodule, its text is the
    text the patch block has built. *)
Lemma type_branch_text (e : Env) (st1 st2 : State) (it : Item)
    (p name text1 txt : str) (ch : Children) (attr : option Attr) :
  (type it = commit -> github_submodule e p = false) ->
  type_branch e st1 it p name text1 = Ok (st2, ch, txt, attr) ->
  txt = text1.
Proof.
  unfold type_branch. intros Hc.
  destruct (children_step e st1 it p) as [s c]. destruct (type it).
  - intros H. by apply bind_Ok_inv in H as (a & _ & [= _ _ <- _]).
  - intros H. by apply bind_Ok_inv in H as (a & _ & [= _ _ <- _]).
  - intros H. apply bind_Ok_inv in H as ([t a] & H & [= _ _ <- _]).
    eapply submodule_branch_plain; [|exact H]. by apply Hc.
Qed.

(** C6, as stated, fails in two ways. A removed file whose patch has
    no [additions] and no [deletions] gets both count badges, with the
    text [undefined]; and a removed entry that is a GitHub submodule gets
    the two submodule links as its text, without any badge. *)
Lemma patch_badges_counterexample :
  loaded_text (host_of [removed_file None None] ∅) opts0 0
  = Some (qlit "README.md<span class=`patch`><span class=`text-red` title=`old/path.txt`>removed</span><span class=`text-green`>+undefined</span><span class=`text-red`>-undefined</span></span>")
  /\
  loaded_text
    (host_of [vendor (Some (removed_patch (Some 0) (Some 0)))]
       (vendor_at (lit "https://github.com/owner/repo")))
    opts0 0
  = Some (qlit "<a href=`https://github.com/owner/repo` class=`jstree-anchor`>vendor</a><span>@ </span><a href=`https://github.com/owner/repo/tree/0123456789abcdef` class=`jstree-anchor`>0123456</a>").
Proof. split; vm_compute; reflexivity. Qed.

(** C6, amended. An entry with a patch whose action is [removed] and
    whose previous path is [prev], and that is not rendered as a GitHub
    submodule, gets as text its name followed by the patch fragment; the
    fragment starts with the red [removed] badge whose tooltip is [prev],
    has no additions badge when [additions] is 0 and no deletions badge
    when [deletions] is 0. *)
Theorem patch_removed_text (e : Env) (st st' : State) (k : nat)
    (item0 : Item) (p : PatchInfo) (prev : str) :
  patch (transformed e item0) = Some p ->
  action p = removed ->
  previous p = Some prev ->
  (type (transformed e item0) = commit ->
   github_submodule e (final_path e item0) = false) ->
  (k < length (items st))%nat ->
  process_item e st k item0 = Ok st' ->
  exists node,
    items st' !! k = Some node /\
    text node
    = Some (item_name (final_path e item0) ++ qlit "<span class=`patch`>"
            ++ removed_badge prev ++ files_badge p
            ++ additions_badge p ++ deletions_badge p ++ lit "</span>") /\
    (additions p = Some 0 -> additions_badge p = []) /\
    (deletions p = Some 0 -> deletions_badge p = []).
Proof.
  intros Hp Ha Hprev Hc Hk H.
  apply process_item_inv in H
    as (st1 & st2 & ch & txt & attr & H1 & H2 & ->).
  eexists. split.
  { simpl. apply list_lookup_insert_eq.
    apply push_item_inv in H1 as (r & _ & ->).
    apply type_branch_store in H2 as [[_ ->] | (_ & _ & -> & _)]; exact Hk. }
  apply type_branch_text in H2 as ->; [|exact Hc].
  split; [|split].
  - simpl. rewrite Hp. unfold patched_text, patch_html, action_badge.
    rewrite Ha, Hprev. unfold removed_badge. simpl tmpl_str.
    by rewrite <- !app_assoc.
  - unfold additions_badge. by intros ->.
  - unfold deletions_badge. by intros ->.
Qed.

Lemma patch_removed_text_witness :
  exists node,
    items (run_item (env_of host0 opts0 ∅)
             (init_state [removed_file (Some 0) (Some 0)]) 0
             (removed_file (Some 0) (Some 0))) !! 0%nat = Some node /\
    text node
    = Some (item_name (lit "README.md") ++ qlit "<span class=`patch`>"
            ++ removed_badge (lit "old/path.txt")
            ++ files_badge (removed_patch (Some 0) (Some 0))
            ++ additions_badge (removed_patch (Some 0) (Some 0))
            ++ deletions_badge (removed_patch (Some 0) (Some 0))
            ++ lit "</span>") /\
    (additions (removed_patch (Some 0) (Some 0)) = Some 0 ->
     additions_badge (removed_patch (Some 0) (Some 0)) = []) /\
    (deletions (removed_patch (Some 0) (Some 0)) = Some 0 ->
     deletions_badge (removed_patch (Some 0) (Some 0)) = []).
Proof.
  apply (patch_removed_text (env_of host0 opts0 ∅)
           (init_state [removed_file (Some 0) (Some 0)]) _ 0
           (removed_file (Some 0) (Some 0))
           (removed_patch (Some 0) (Some 0)) (lit "old/path.txt")).
  - reflexivity.
  - reflexivity.
  - reflexivity.
  - intros H. discriminate H.
  - simpl. lia.
  - vm_compute. reflexivity.
Defined.

End Rendering.

Module Submodules.
Import JS Adapter Spec Examples JSFacts RenderFacts UrlFacts.

(** The three replacements on [git://github.com/owner/repo.git] give
    the web URL under the protocol of the page. *)
Lemma normalize_git_url (h : Host) (owner rn : str) :
  occursb (lit "github.com:")
    (location_protocol h ++ lit "//github.com/" ++ owner ++ lit "/" ++ rn
     ++ lit ".git") = false ->
  normalize_module_url h
    (lit "git://github.com/" ++ owner ++ lit "/" ++ rn ++ lit ".git")
  = location_protocol h ++ lit "//github.com/" ++ owner ++ lit "/" ++ rn.
Proof.
  intros H. unfold normalize_module_url.
  change (lit "git://github.com/" ++ owner ++ lit "/" ++ rn ++ lit ".git")
    with (lit "git://" ++ (lit "github.com/" ++ owner ++ lit "/" ++ rn
                           ++ lit ".git")).
  unfold replace_git_scheme. rewrite startsWith_app.
  rewrite drop_app_length' by reflexivity.
  replace ((location_protocol h ++ lit "//")
           ++ lit "github.com/" ++ owner ++ lit "/" ++ rn ++ lit ".git")
    with (location_protocol h ++ lit "//github.com/" ++ owner ++ lit "/"
          ++ rn ++ lit ".git")
    by (rewrite <- app_assoc; reflexivity).
  rewrite (replace_absent _ _ _ H).
  replace (location_protocol h ++ lit "//github.com/" ++ owner ++ lit "/"
           ++ rn ++ lit ".git")
    with ((location_protocol h ++ lit "//github.com/" ++ owner ++ lit "/"
           ++ rn) ++ 46 :: lit "git")
    by (rewrite <- !app_assoc; reflexivity).
  by apply strip_dot_git_app.
Qed.

(** [sha.substr(0, 7)] is the first seven code units of the sha (all of
    it when it is shorter). *)
Lemma substr_first_seven (s : str) : substr s 0 7 = take 7 s.
Proof. reflexivity. Qed.

(** C9. A commit entry whose submodule URL is
    [git://github.com/owner/repo.git] (for any owner and repository
    name that do not bring the text [github.com:] into the URL) is
    rendered with the web URL [<protocol>//github.com/owner/repo] as its
    href and, as its text, a link from the name to that URL and a link
    from the first seven characters of the sha to [<URL>/tree/<sha>],
    with [<span>@ </span>] between the two; what happens to the store is
    the push of the entry and the write of the rendered entry. *)
Theorem submodule_github_links (e : Env) (st : State) (k : nat)
    (item0 : Item) (owner rn s : str) :
  type (transformed e item0) = commit ->
  submodules e !! final_path e item0
  = Some (lit "git://github.com/" ++ owner ++ lit "/" ++ rn ++ lit ".git") ->
  sha (transformed e item0) = Some s ->
  occursb (lit "github.com:")
    (location_protocol (host e) ++ lit "//github.com/" ++ owner ++ lit "/"
     ++ rn ++ lit ".git") = false ->
  process_item e st k item0
  = (st1 ← push_item st (bucket_key e (final_path e item0)) k;
     Ok (write_item st1 k
           (rendered e (transformed e item0) (final_path e item0)
              (item_name (final_path e item0))
              (children (transformed e item0))
              (anchor (location_protocol (host e) ++ lit "//github.com/"
                       ++ owner ++ lit "/" ++ rn)
                 (item_name (final_path e item0))
               ++ lit "<span>@ </span>"
               ++ anchor ((location_protocol (host e) ++ lit "//github.com/"
                           ++ owner ++ lit "/" ++ rn) ++ lit "/tree/" ++ s)
                    (take 7 s))
              (Some {| href := location_protocol (host e)
                               ++ lit "//github.com/" ++ owner ++ lit "/" ++ rn;
                       data_download_url := None;
                       data_download_filename := None |})))).
Proof.
  intros Ht Hs Hsha Hno. unfold process_item.
  destruct (push_item st _ k) as [st1|x]; [|reflexivity].
  cbn [mbind Res_bind]. unfold type_branch, children_step. rewrite Ht.
  unfold submodule_branch, lookup_submodule. rewrite Hs.
  cbn [mbind Res_bind]. rewrite indexOf_truthy.
  assert (occursb (lit "github.com")
            (lit "git://github.com/" ++ owner ++ lit "/" ++ rn ++ lit ".git")
          = true) as ->.
  { apply occursb_occurs.
    by exists (lit "git://"), (lit "/" ++ owner ++ lit "/" ++ rn ++ lit ".git"). }
  change (truthy_str (lit "git://github.com/" ++ owner ++ lit "/" ++ rn
                      ++ lit ".git")) with true.
  cbv iota. rewrite (normalize_git_url _ _ _ Hno), Hsha.
  unfold submodule_text. cbn [mbind Res_bind].
  rewrite substr_first_seven.
  do 3 f_equal. unfold anchor. by rewrite <- !app_assoc.
Qed.

Lemma submodule_github_links_witness :
  (items (run_item (env_of host0 opts0
                      (vendor_at (lit "git://github.com/owner/repo.git")))
            (init_state [vendor None]) 0 (vendor None)) !! 0%nat)
  ≫= text
  = Some (qlit "<a href=`https://github.com/owner/repo` class=`jstree-anchor`>vendor</a><span>@ </span><a href=`https://github.com/owner/repo/tree/0123456789abcdef` class=`jstree-anchor`>0123456</a>")
  /\
  (items (run_item (env_of host0 opts0
                      (vendor_at (lit "git://github.com/owner/repo.git")))
            (init_state [vendor None]) 0 (vendor None)) !! 0%nat)
  ≫= a_attr
  = Some {| href := lit "https://github.com/owner/repo";
            data_download_url := None;
            data_download_filename := None |}.
Proof.
  unfold run_item.
  rewrite (submodule_github_links
             (env_of host0 opts0
                (vendor_at (lit "git://github.com/owner/repo.git")))
             (init_state [vendor None]) 0 (vendor None)
             (lit "owner") (lit "repo") (lit "0123456789abcdef"));
    [ | reflexivity | vm_compute; reflexivity | reflexivity
      | vm_compute; reflexivity ].
  split; vm_compute; reflexivity.
Defined.

Lemma url_char_not_line_terminator (c : Z) :
  url_char c -> line_terminator c = false.
Proof.
  unfold url_char, line_terminator. intros H.
  repeat (apply orb_false_iff; split); apply Z.eqb_neq; lia.
Qed.

(** C10. The suffix-stripping step removes the last four characters of
    every URL that ends with one character, whichever character a URL
    can be written with, followed by the letters [git], not only of a
    URL that ends with [.git]: the dot of the pattern matches the
    character. When the URL is a web URL already (no [git://] or [git@]
    in front, no [github.com:] in it), this is all the normalization of
    a GitHub submodule URL does, so a URL that ends with [-git] or
    [agit] loses its last four characters. *)
Theorem strip_dot_git_any_char (h : Host) (u : str) (c : Z) :
  url_char c ->
  strip_dot_git (u ++ c :: lit "git") = u /\
  (startsWith (lit "git://") (u ++ c :: lit "git") = false ->
   startsWith (lit "git@") (u ++ c :: lit "git") = false ->
   occursb (lit "github.com:") (u ++ c :: lit "git") = false ->
   normalize_module_url h (u ++ c :: lit "git") = u).
Proof.
  intros Hc. apply url_char_not_line_terminator in Hc.
  split; [by apply strip_dot_git_app|].
  intros H1 H2 H3. unfold normalize_module_url.
  rewrite (replace_git_scheme_absent _ _ H1 H2), (replace_absent _ _ _ H3).
  by apply strip_dot_git_app.
Qed.

Lemma strip_dot_git_any_char_witness :
  normalize_module_url host0 (lit "https://github.com/o/r" ++ 45 :: lit "git")
  = lit "https://github.com/o/r"
  /\
  normalize_module_url host0 (lit "https://github.com/o/r" ++ 97 :: lit "git")
  = lit "https://github.com/o/r".
Proof.
  split.
  - apply (strip_dot_git_any_char host0 (lit "https://github.com/o/r") 45);
      [unfold url_char; lia|reflexivity..].
  - apply (strip_dot_git_any_char host0 (lit "https://github.com/o/r") 97);
      [unfold url_char; lia|reflexivity..].
Defined.

End Submodules.

Module Href.
Import JS Adapter Spec Examples.
Import JSFacts UriFacts RenderFacts.

(** C8. For a file or directory entry that does not link to a diff of a
    pull request, and whose path is a well-formed string, each segment
    of the path is percent-encoded on its own and the encoded segments
    are joined with slashes: the slashes of the encoded path are exactly
    the separators, decoding its segments gives the segments of the
    path, and the href (also the download URL) of the entry is the item
    URL built on the encoded path. *)
Theorem item_href_segments (e : Env) (st : State) (k : nat) (item0 : Item) :
  type (transformed e item0) <> commit ->
  (forall q, patch (transformed e item0) = Some q -> diffId q = None) ->
  Forall code_unit (final_path e item0) ->
  isWellFormed (final_path e item0) = true ->
  exists segs,
    mapM encodeURIComponent (split 47 (final_path e item0)) = Ok segs /\
    split 47 (join (lit "/") segs) = segs /\
    mapM decodeURIComponent (split 47 (join (lit "/") segs))
    = Ok (split 47 (final_path e item0)) /\
    process_item e st k item0
    = (st1 ← push_item st (bucket_key e (final_path e item0)) k;
       let '(st2, ch) :=
         children_step e st1 (transformed e item0) (final_path e item0) in
       Ok (write_item st2 k
             (rendered e (transformed e item0) (final_path e item0)
                (item_name (final_path e item0)) ch
                (patched_text (item_name (final_path e item0))
                   (patch (transformed e item0)))
                (Some {| href :=
                           _getItemHref (repo (opts e))
                             (type (transformed e item0))
                             (join (lit "/") segs) (branch_enc e);
                         data_download_url :=
                           Some (_getItemHref (repo (opts e))
                                   (type (transformed e item0))
                                   (join (lit "/") segs) (branch_enc e));
                         data_download_filename :=
                           Some (item_name (final_path e item0)) |})))).
Proof.
  intros Ht Hp Hcu Hwf.
  destruct (encoded_path_roundtrip _ Hcu Hwf) as (segs & H1 & H2 & H3 & H4).
  exists segs. repeat (split; [done|]).
  unfold process_item.
  destruct (push_item st _ k) as [st1|x]; [|reflexivity].
  cbn [mbind Res_bind]. unfold type_branch.
  destruct (children_step e st1 _ _) as [st2 ch].
  assert (item_a_attr (repo (opts e)) (type (transformed e item0))
            (final_path e item0) (item_name (final_path e item0))
            (branch_enc e) (url (transformed e item0))
            (patch (transformed e item0))
          = Ok {| href :=
                    _getItemHref (repo (opts e)) (type (transformed e item0))
                      (join (lit "/") segs) (branch_enc e);
                  data_download_url :=
                    Some (_getItemHref (repo (opts e))
                            (type (transformed e item0))
                            (join (lit "/") segs) (branch_enc e));
                  data_download_filename :=
                    Some (item_name (final_path e item0)) |}) as Ha.
  { unfold item_a_attr. rewrite H2. cbn [mbind Res_bind].
    destruct (patch (transformed e item0)) as [q|]; [|reflexivity].
    by rewrite (Hp q eq_refl). }
  destruct (type (transformed e item0)); [| |done]; by rewrite Ha.
Qed.

Lemma item_href_segments_witness :
  (items (run_item (env_of host0 opts0 ∅) odd_store 2 odd_file) !! 2%nat)
  ≫= a_attr
  = Some {| href := lit "/owner/project/blob/master/docs/a%20b/100%25.txt";
            data_download_url :=
              Some (lit "/owner/project/blob/master/docs/a%20b/100%25.txt");
            data_download_filename := Some (lit "100%.txt") |}
  /\
  mapM decodeURIComponent (split 47 (lit "docs/a%20b/100%25.txt"))
  = Ok [lit "docs"; lit "a b"; lit "100%.txt"].
Proof.
  destruct (item_href_segments (env_of host0 opts0 ∅) odd_store 2 odd_file)
    as (segs & H1 & H2 & H3 & H4).
  - discriminate.
  - intros q H. discriminate H.
  - vm_compute. repeat constructor; discriminate.
  - reflexivity.
  - unfold run_item. rewrite H4.
    vm_compute in H1. injection H1 as <-.
    split; vm_compute; reflexivity.
Defined.

End Href.

Module ChunkFacts.
Import JS Adapter Spec JSFacts RenderFacts.

Lemma process_item_length (e : Env) (st st' : State) (k : nat) (item : Item) :
  process_item e st k item = Ok st' ->
  length (items st') = length (items st).
Proof.
  intros H. apply process_item_items in H as (node & -> & _).
  apply length_insert.
Qed.

Lemma process_range_app (e : Env) (l1 l2 : list nat) (st : State) :
  process_range e (l1 ++ l2) st
  = (st' ← process_range e l1 st; process_range e l2 st').
Proof.
  revert st. induction l1 as [|k l1 IH]; intros st; simpl; [done|].
  destruct (items st !! k) as [item|]; [|apply IH].
  destruct (process_item e st k item) as [st'|x]; simpl; [apply IH|done].
Qed.

Lemma process_range_length (e : Env) (ks : list nat) (st st' : State) :
  process_range e ks st = Ok st' ->
  length (items st') = length (items st).
Proof.
  revert st. induction ks as [|k ks IH]; intros st; simpl.
  - by intros [= <-].
  - destruct (items st !! k) as [item|]; [|apply IH].
    intros H. apply bind_Ok_inv in H as (st1 & H1 & H).
    rewrite (IH _ H). by eapply process_item_length.
Qed.

(** A run of the [for] loop that finds all its entries processes them
    and schedules the next call. *)
Lemma chunk_loop_full (e : Env) (cs it : nat) (rem i : nat) (st : State) :
  (it * cs + i + rem <= length (items st))%nat ->
  chunk_loop e cs it rem i st
  = (st' ← process_range e (seq (it * cs + i) rem) st; Ok (Scheduled st')).
Proof.
  revert i st. induction rem as [|rem IH]; intros i st Hlen; simpl; [done|].
  destruct (lookup_lt_is_Some_2 (items st) (it * cs + i)) as [item Hitem];
    [lia|].
  rewrite Hitem.
  destruct (process_item e st (it * cs + i) item) as [st'|x] eqn:E;
    simpl; [|done].
  rewrite IH by (rewrite (process_item_length _ _ _ _ _ E); lia).
  by rewrite Nat.add_succ_r.
Qed.

(** A run of the [for] loop that reaches the end of the tree processes
    the entries that are left and calls the callback. *)
Lemma chunk_loop_last (e : Env) (cs it : nat) (rem i : nat) (st : State) :
  (it * cs + i <= length (items st))%nat ->
  (length (items st) < it * cs + i + rem)%nat ->
  chunk_loop e cs it rem i st
  = (st' ← process_range e
             (seq (it * cs + i) (length (items st) - (it * cs + i))) st;
     Ok (deliver st')).
Proof.
  revert i st. induction rem as [|rem IH]; intros i st Hk Hlen; [lia|].
  simpl. destruct (items st !! (it * cs + i)%nat) as [item|] eqn:Hitem.
  - apply lookup_lt_Some in Hitem as Hlt.
    replace (length (items st) - (it * cs + i))%nat
      with (S (length (items st) - S (it * cs + i)))%nat by lia.
    simpl. rewrite Hitem.
    destruct (process_item e st (it * cs + i) item) as [st'|x] eqn:E;
      simpl; [|done].
    pose proof (process_item_length _ _ _ _ _ E) as Hl.
    rewrite IH by (rewrite Hl; lia).
    by rewrite Nat.add_succ_r, Hl.
  - apply lookup_ge_None in Hitem.
    replace (length (items st) - (it * cs + i))%nat with 0%nat by lia.
    reflexivity.
Qed.

Lemma nextChunk_sequential (e : Env) (cs fuel it : nat) (st : State) :
  (0 < cs)%nat ->
  (it * cs <= length (items st))%nat ->
  (length (items st) - it * cs < S fuel * cs)%nat ->
  nextChunk e cs fuel it st
  = Some (st' ← process_range e
                  (seq (it * cs) (length (items st) - it * cs)) st;
          Ok (deliver_tree st')).
Proof.
  intros Hcs. revert it st.
  induction fuel as [|fuel IH]; intros it st Hk Hfuel;
    destruct (Nat.le_gt_cases (it * cs + cs) (length (items st)))
      as [Hfull|Hlast]; try (simpl in Hfuel; lia).
  - (* no scheduled call is left, and none is needed *)
    cbn [nextChunk]. rewrite chunk_loop_last by lia.
    rewrite Nat.add_0_r.
    by destruct (process_range e _ st) as [st'|x].
  - (* a full chunk, then the scheduled call *)
    cbn [nextChunk]. rewrite chunk_loop_full by lia.
    rewrite Nat.add_0_r.
    replace (length (items st) - it * cs)%nat
      with (cs + (length (items st) - S it * cs))%nat by (simpl; lia).
    rewrite seq_app, process_range_app.
    destruct (process_range e (seq (it * cs) cs) st) as [st'|x] eqn:E;
      simpl; [|done].
    pose proof (process_range_length _ _ _ _ E) as Hl.
    rewrite IH by (rewrite Hl; simpl in *; lia).
    rewrite Hl.
    replace (S it * cs)%nat with (it * cs + cs)%nat by lia.
    replace (cs + it * cs)%nat with (it * cs + cs)%nat by lia.
    reflexivity.
  - (* the last chunk *)
    cbn [nextChunk]. rewrite chunk_loop_last by lia.
    rewrite Nat.add_0_r.
    by destruct (process_range e _ st) as [st'|x].
Qed.

Lemma prepare_inv (h : Host) (o : Opts) (tr : option (Item -> Item))
    (e : Env) (t : list Item) :
  prepare h o tr = Ok (inr (e, t)) ->
  host e = h /\ transform e = tr /\ node (opts e) = node o.
Proof.
  unfold prepare. intros H. apply bind_Ok_inv in H as (b & _ & H).
  destruct (_getTree h _ _) as [err|t']; [discriminate|].
  destruct (_getSubmodules h _ _) as [err|subs]; [discriminate|].
  by injection H as <- _.
Qed.

(** For a positive chunk size the chunked method is the sequential
    one. *)
Lemma loadCodeTree_chunked_sequential (n : nat) (h : Host) (o : Opts)
    (tr : option (Item -> Item)) :
  (0 < n)%nat ->
  loadCodeTree_chunked n h o tr = Some (load_sequential h o tr).
Proof.
  intros Hn. unfold loadCodeTree_chunked, load_sequential.
  destruct (prepare h o tr) as [[err|[e t]]|x]; simpl; try done.
  rewrite nextChunk_sequential; simpl; [|lia|lia|nia].
  by rewrite Nat.sub_0_r.
Qed.

End ChunkFacts.

Module Chunking.
Import JS Adapter Spec Examples.
Import JSFacts RenderFacts ChunkFacts.

(** C7. For every positive chunk size the method gives the outcome of
    the sequential pass (the same callback argument and the same store,
    or the same exception), and so does the method as it is, with
    chunks of 300: the outcome does not depend on the chunk size. *)
Theorem chunking_transparent (n : nat) (h : Host) (o : Opts)
    (tr : option (Item -> Item)) :
  (0 < n)%nat ->
  loadCodeTree_chunked n h o tr = Some (load_sequential h o tr) /\
  _loadCodeTreeInternal h o tr = loadCodeTree_chunked n h o tr.
Proof.
  intros Hn. split; [by apply loadCodeTree_chunked_sequential|].
  unfold _loadCodeTreeInternal.
  rewrite !loadCodeTree_chunked_sequential; (done || unfold CHUNK_SIZE; lia).
Qed.

Lemma chunking_transparent_witness :
  loadCodeTree_chunked 2 (host_of odd_tree ∅) opts0 None
  = Some (load_sequential (host_of odd_tree ∅) opts0 None) /\
  _loadCodeTreeInternal (host_of odd_tree ∅) opts0 None
  = loadCodeTree_chunked 2 (host_of odd_tree ∅) opts0 None.
Proof. apply chunking_transparent. lia. Defined.

End Chunking.

Module StoreFacts.
Import JS Adapter Spec JSFacts RenderFacts ChunkFacts.

(** What the loop body does to the arrays and to [folders]: the index
    is appended to the array of the bucket, and for a directory of a
    full load one empty array is added and registered. *)
Lemma process_item_store (e : Env) (st st' : State) (k : nat) (item : Item) :
  process_item e st k item = Ok st' ->
  exists r,
    folders st !! bucket_key e (final_path e item) = Some r /\
    (((type (transformed e item) = tree -> lazy e = true) /\
      arrays st' = alter (fun l => l ++ [k]) r (arrays st) /\
      folders st' = folders st) \/
     (type (transformed e item) = tree /\ lazy e = false /\
      arrays st' = alter (fun l => l ++ [k]) r (arrays st) ++ [[]] /\
      folders st'
      = <[final_path e item := length (arrays st)]> (folders st))).
Proof.
  intros H. apply process_item_inv in H
    as (st1 & st2 & ch & txt & attr & H1 & H2 & ->).
  apply push_item_inv in H1 as (r & Hr & ->). exists r. split; [done|].
  apply type_branch_store in H2 as [[Ht ->] | (Ht & Hl & -> & _)].
  - by left.
  - right. simpl. by rewrite length_alter.
Qed.

Lemma concat_alter_snoc (A : list (list nat)) (r k : nat) :
  (r < length A)%nat ->
  concat (alter (fun l => l ++ [k]) r A) ≡ₚ k :: concat A.
Proof.
  revert r. induction A as [|l A IH]; intros r Hr; simpl in Hr; [lia|].
  destruct r as [|r].
  - simpl. rewrite <- app_assoc. simpl.
    by rewrite <- Permutation_middle.
  - change (concat (alter (fun l => l ++ [k]) (S r) (l :: A)))
      with (l ++ concat (alter (fun l => l ++ [k]) r A)).
    rewrite IH by lia. simpl. by rewrite <- Permutation_middle.
Qed.

Lemma Forall_alter_impl {A : Type} (P Q : A -> Prop) (f : A -> A)
    (l : list A) (i : nat) :
  (forall x, P x -> Q x) -> (forall x, P x -> Q (f x)) ->
  Forall P l -> Forall Q (alter f i l).
Proof.
  intros HQ Hf H. revert i.
  induction H as [|x l Hx Hl IH]; intros i; [constructor|].
  destruct i; simpl; constructor; auto.
  - eapply Forall_impl; [exact Hl|]. auto.
  - apply IH.
Qed.

Lemma store_inv_init (e : Env) (t : list Item) :
  store_inv e t 0 (init_state t).
Proof.
  split; simpl; try done.
  - repeat constructor.
  - intros key r H. apply lookup_singleton_Some in H as [_ <-]. lia.
  - intros j it Hj. lia.
Qed.

(** The loop body keeps the invariant of the store. *)
Lemma store_inv_step (e : Env) (t : list Item) (k : nat) (st st' : State)
    (item : Item) :
  store_inv e t k st ->
  t !! k = Some item ->
  process_item e st k item = Ok st' ->
  store_inv e t (S k) st'.
Proof.
  intros [Hlen Hperm Hord Hrefs Htodo Hdone] Hitem H.
  pose proof (process_item_items _ _ _ _ _ H)
    as (node & Hitems & Hpath & _ & Hid).
  pose proof (process_item_store _ _ _ _ _ H) as (r & Hr & Hst).
  pose proof (Hrefs _ _ Hr) as Hrlt.
  assert (Forall (fun l => l `sublist_of` seq 0 (S k))
            (alter (fun l => l ++ [k]) r (arrays st))) as Hord'.
  { rewrite seq_S. simpl.
    eapply Forall_alter_impl; [| |exact Hord]; simpl.
    - intros l Hl. by apply sublist_inserts_r.
    - intros l Hl. by apply sublist_app. }
  assert (concat (alter (fun l => l ++ [k]) r (arrays st)) ≡ₚ seq 0 (S k))
    as Hperm'.
  { rewrite concat_alter_snoc by done. rewrite Hperm, seq_S. simpl.
    apply Permutation_cons_append. }
  split.
  - rewrite Hitems, length_insert. done.
  - destruct Hst as [(_ & -> & _) | (_ & _ & -> & _)]; [done|].
    rewrite concat_app. simpl. by rewrite app_nil_r.
  - destruct Hst as [(_ & -> & _) | (_ & _ & -> & _)]; [done|].
    apply Forall_app. split; [done|]. repeat constructor.
    apply sublist_nil_l.
  - intros key r' Hk.
    destruct Hst as [(_ & -> & Hf) | (_ & _ & -> & Hf)]; rewrite Hf in Hk.
    + rewrite length_alter. eauto.
    + rewrite length_app, length_alter. simpl.
      destruct (decide (final_path e item = key)) as [<-|Hne].
      * rewrite lookup_insert_eq in Hk. injection Hk as <-. lia.
      * rewrite lookup_insert_ne in Hk by done.
        apply Hrefs in Hk. lia.
  - intros j Hj. rewrite Hitems, list_lookup_insert_ne by lia.
    apply Htodo. lia.
  - intros j it Hj Hit. rewrite Hitems.
    destruct (decide (j = k)) as [->|Hne].
    + rewrite list_lookup_insert_eq
        by (rewrite Hlen; by eapply lookup_lt_Some).
      rewrite Hitem in Hit. injection Hit as <-. eauto.
    + rewrite list_lookup_insert_ne by done. apply Hdone; [lia|done].
Qed.

Lemma store_inv_range (e : Env) (t : list Item) (m k : nat)
    (st st' : State) :
  store_inv e t k st ->
  (k + m <= length t)%nat ->
  process_range e (seq k m) st = Ok st' ->
  store_inv e t (k + m) st'.
Proof.
  revert k st. induction m as [|m IH]; intros k st Hinv Hkm; simpl.
  - intros [= <-]. by rewrite Nat.add_0_r.
  - destruct (lookup_lt_is_Some_2 t k) as [item Hitem]; [lia|].
    rewrite (inv_todo _ _ _ _ Hinv k) by lia. rewrite Hitem.
    intros H. apply bind_Ok_inv in H as (st1 & H1 & H).
    rewrite Nat.add_succ_r. apply (IH (S k) st1); [|lia|done].
    by eapply store_inv_step.
Qed.

End StoreFacts.

Module Buckets.
Import JS Adapter Spec.
Import Examples.
Import JSFacts RenderFacts ChunkFacts StoreFacts.

(** C1. When a load delivers a tree, the arrays of the store (the
    buckets) hold one reference for each entry of the fetched list and
    no other: their concatenation is a permutation of the indices of the
    list, so there are as many references as entries, none dropped and
    none twice; each bucket lists its indices in increasing order, which
    is the order of the entries in the list; and the entry at index [j]
    has become the node whose path (after the prefix of a lazy load) and
    id are those of the [j]-th entry received. *)
Theorem buckets_count_and_order (h : Host) (o : Opts)
    (tr : option (Item -> Item)) (root : option nat) (st : State) :
  _loadCodeTreeInternal h o tr = Some (Ok (CbTree root st)) ->
  exists e t,
    prepare h o tr = Ok (inr (e, t)) /\
    length (concat (arrays st)) = length t /\
    concat (arrays st) ≡ₚ seq 0 (length t) /\
    Forall (fun l => l `sublist_of` seq 0 (length t)) (arrays st) /\
    (forall j it, t !! j = Some it ->
       exists nd, items st !! j = Some nd /\
         path nd = final_path e it /\
         id nd = Some (NODE_PREFIX h ++ final_path e it)) /\
    root = folders st !! [].
Proof.
  unfold _loadCodeTreeInternal.
  rewrite loadCodeTree_chunked_sequential by (unfold CHUNK_SIZE; lia).
  intros [= H]. unfold load_sequential in H.
  apply bind_Ok_inv in H as ([err|[e t]] & Hprep & H); [discriminate|].
  apply bind_Ok_inv in H as (st1 & Hrange & H).
  unfold deliver_tree in H. injection H as <- <-.
  pose proof (store_inv_range e t (length t) 0 _ _
                (store_inv_init e t) ltac:(lia) Hrange) as Hinv.
  simpl in Hinv. destruct Hinv as [Hlen Hperm Hord Hrefs Htodo Hdone].
  destruct (prepare_inv _ _ _ _ _ Hprep) as (<- & _ & _).
  exists e, t. repeat split; try done.
  - by rewrite Hperm, length_seq.
  - intros j it Hit. apply Hdone; [|done]. by eapply lookup_lt_Some.
Qed.

Lemma buckets_count_and_order_witness :
  exists e t,
    prepare (host_of odd_tree ∅) opts0 None = Ok (inr (e, t)) /\
    length (concat (arrays (loaded_store (host_of odd_tree ∅) opts0)))
    = length t /\
    concat (arrays (loaded_store (host_of odd_tree ∅) opts0))
    ≡ₚ seq 0 (length t) /\
    Forall (fun l => l `sublist_of` seq 0 (length t))
      (arrays (loaded_store (host_of odd_tree ∅) opts0)) /\
    (forall j it, t !! j = Some it ->
       exists nd,
         items (loaded_store (host_of odd_tree ∅) opts0) !! j = Some nd /\
         path nd = final_path e it /\
         id nd = Some (NODE_PREFIX (host_of odd_tree ∅) ++ final_path e it)) /\
    Some 0%nat = folders (loaded_store (host_of odd_tree ∅) opts0) !! [].
Proof.
  apply (buckets_count_and_order (host_of odd_tree ∅) opts0 None).
  vm_compute. reflexivity.
Defined.

End Buckets.

Module ParentBuckets.
Import JS Adapter Spec.
Import Examples.
Import JSFacts RenderFacts ChunkFacts StoreFacts.

Lemma encode_throws_below (n : nat) (s : str) (x : Exn) :
  (length s < n)%nat -> encodeURIComponent s = Throw x -> x = URIError.
Proof.
  revert s. induction n as [|n IH]; intros s Hn H; [lia|].
  destruct s as [|c s']; simpl in *; [discriminate|].
  destruct (unreserved c).
  { destruct (encodeURIComponent s') eqn:E; [discriminate|].
    injection H as <-. apply (IH s'); [lia|done]. }
  destruct (is_low_surrogate c); [by injection H|].
  destruct (is_high_surrogate c).
  - destruct s' as [|d s'']; [by injection H|]. simpl in Hn.
    destruct (is_low_surrogate d); [|by injection H].
    destruct (encodeURIComponent s'') eqn:E; [discriminate|].
    injection H as <-. apply (IH s''); [lia|done].
  - destruct (encodeURIComponent s') eqn:E; [discriminate|].
    injection H as <-. apply (IH s'); [lia|done].
Qed.

Lemma mapM_throws {A B : Type} (P : Exn -> Prop) (f : A -> Res B)
    (l : list A) (x : Exn) :
  (forall a y, f a = Throw y -> P y) -> mapM f l = Throw x -> P x.
Proof.
  intros Hf. induction l as [|a l IH]; simpl; [discriminate|].
  destruct (f a) as [b|y] eqn:E; simpl.
  - destruct (mapM f l); simpl; [discriminate|].
    intros [= <-]. by apply IH.
  - intros [= <-]. by eapply Hf.
Qed.

Lemma item_a_attr_throws (r : Repo) (t : EntryType) (p name b : str)
    (u : option str) (pa : option PatchInfo) (x : Exn) :
  item_a_attr r t p name b u pa = Throw x -> x = URIError.
Proof.
  assert (forall y, encoded_path p = Throw y -> y = URIError) as He.
  { unfold encoded_path. intros y H.
    destruct (mapM encodeURIComponent (split 47 p)) eqn:E; [discriminate|].
    injection H as <-.
    eapply (mapM_throws (fun y => y = URIError)); [|exact E].
    intros a y. apply (encode_throws_below (S (length a))). lia. }
  unfold item_a_attr. intros H.
  destruct (encoded_path p) eqn:E; simpl in H.
  - destruct pa as [q|]; [destruct (diffId q)|]; discriminate.
  - destruct pa as [q|]; [destruct (diffId q)|];
      try discriminate; injection H as <-; by apply He.
Qed.

(** The branch on the type never fails for want of a bucket. *)
Lemma type_branch_throws (e : Env) (st1 : State) (it : Item)
    (p name text1 : str) (x : Exn) (key : str) :
  type_branch e st1 it p name text1 = Throw x -> x <> TypeError_no_bucket key.
Proof.
  unfold type_branch. destruct (children_step e st1 it p) as [st2 ch].
  destruct (type it).
  - destruct (item_a_attr _ _ _ _ _ _ _) eqn:E; [discriminate|].
    intros [= <-]. by rewrite (item_a_attr_throws _ _ _ _ _ _ _ _ E).
  - destruct (item_a_attr _ _ _ _ _ _ _) eqn:E; [discriminate|].
    intros [= <-]. by rewrite (item_a_attr_throws _ _ _ _ _ _ _ _ E).
  - unfold submodule_branch, lookup_submodule, submodule_text.
    destruct (submodules e !! p) as [u|].
    + cbn [mbind Res_bind].
      destruct (truthy_str u); [|discriminate].
      destruct (truthy_num _); [|discriminate].
      destruct (sha it); cbn [mbind Res_bind]; [discriminate|].
      by intros [= <-].
    + destruct (existsb (str_eqb p) Object_prototype_keys);
        cbn [mbind Res_bind]; [|discriminate].
      by intros [= <-].
Qed.

(** The loop body fails for want of a bucket exactly when [folders]
    has nothing under the key of the entry. *)
Lemma process_item_no_bucket (e : Env) (st : State) (k : nat) (item : Item)
    (key : str) :
  process_item e st k item = Throw (TypeError_no_bucket key) ->
  folders st !! bucket_key e (final_path e item) = None.
Proof.
  unfold process_item, push_item.
  destruct (folders st !! bucket_key e (final_path e item)); [|done].
  simpl. destruct (type_branch _ _ _ _ _ _) as [[[[st2 ch] txt] attr]|x] eqn:E;
    simpl; [discriminate|].
  intros [= ->]. by eapply type_branch_throws in E.
Qed.

Lemma process_item_missing (e : Env) (st : State) (k : nat) (item : Item) :
  folders st !! bucket_key e (final_path e item) = None ->
  process_item e st k item
  = Throw (TypeError_no_bucket (bucket_key e (final_path e item))).
Proof. unfold process_item, push_item. by intros ->. Qed.

Lemma folders_inv_init (e : Env) (t : list Item) :
  folders_inv e t 0 (init_state t).
Proof.
  split; simpl.
  - rewrite lookup_singleton_eq. eauto.
  - intros j d Hj. lia.
Qed.

Lemma folders_inv_step (e : Env) (t : list Item) (k : nat) (st st' : State)
    (item : Item) :
  lazy e = false ->
  folders_inv e t k st ->
  t !! k = Some item ->
  process_item e st k item = Ok st' ->
  folders_inv e t (S k) st'.
Proof.
  intros Hlazy [Hroot Hdirs] Hitem H.
  apply process_item_store in H as (r & _ & Hst).
  assert (forall key, is_Some (folders st !! key) ->
                      is_Some (folders st' !! key)) as Hmono.
  { intros key Hkey. destruct Hst as [(_ & _ & ->) | (_ & _ & _ & ->)];
      [done|].
    apply lookup_insert_is_Some. destruct (decide (final_path e item = key));
      auto. }
  split; [by apply Hmono|].
  intros j d Hj Hd Ht. destruct (decide (j = k)) as [->|Hne].
  - rewrite Hitem in Hd. injection Hd as <-.
    destruct Hst as [(Hl & _) | (_ & _ & _ & ->)].
    + rewrite (Hl Ht) in Hlazy. discriminate.
    + rewrite lookup_insert_eq. eauto.
  - apply Hmono, (Hdirs j); [lia|done|done].
Qed.

(** With every directory before its entries, a full load does not
    fail for want of a bucket, whatever else happens to it. *)
Lemma parents_first_range (e : Env) (t : list Item) (m k : nat) (st : State) :
  lazy e = false -> parents_first e t ->
  store_inv e t k st -> folders_inv e t k st ->
  (k + m <= length t)%nat ->
  match process_range e (seq k m) st with
  | Ok st' => folders_inv e t (k + m) st'
  | Throw x => forall key, x <> TypeError_no_bucket key
  end.
Proof.
  intros Hlazy Hpf. revert k st.
  induction m as [|m IH]; intros k st Hinv Hf Hkm; simpl.
  - by rewrite Nat.add_0_r.
  - destruct (lookup_lt_is_Some_2 t k) as [item Hitem]; [lia|].
    rewrite (inv_todo _ _ _ _ Hinv k) by lia. rewrite Hitem.
    destruct (process_item e st k item) as [st1|x] eqn:E; simpl.
    + rewrite Nat.add_succ_r. apply (IH (S k) st1); [| |lia].
      * by eapply store_inv_step.
      * by eapply folders_inv_step.
    + intros key ->. apply process_item_no_bucket in E.
      unfold bucket_key in E. rewrite Hlazy in E.
      destruct Hf as [Hroot Hdirs].
      destruct (Hpf k item Hitem) as [Hp | (j & d & Hj & Hd & Ht & Hp)];
        unfold parent_key in Hp.
      * rewrite Hp in E. rewrite E in Hroot. by destruct Hroot.
      * rewrite <- Hp in E. destruct (Hdirs j d Hj Hd Ht) as [r Hr].
        congruence.
Qed.

(** C2, as stated, fails: a file that comes before the entry of its
    directory finds no bucket, none is created for it, and the load
    ends with the TypeError of the push instead of a tree. *)
Lemma missing_parent_counterexample :
  _loadCodeTreeInternal (host_of child_first ∅) opts0 None
  = Some (Throw (TypeError_no_bucket (lit "a"))).
Proof. vm_compute. reflexivity. Qed.

(** C2, amended. In a load of the full forest no bucket is created on
    demand: the loop body fails with the TypeError of the push on an
    entry whose parent-directory key has no bucket; the load that
    reaches such an entry ends with that TypeError instead of a tree; and
    when every entry lies at the root or in a directory whose own entry
    comes earlier in the list, the load never fails for want of a
    bucket. *)
Theorem parent_bucket_needed (h : Host) (o : Opts)
    (tr : option (Item -> Item)) (e : Env) (t : list Item) :
  prepare h o tr = Ok (inr (e, t)) ->
  node o = None ->
  (forall st k it,
     folders st !! parent_key (final_path e it) = None ->
     process_item e st k it
     = Throw (TypeError_no_bucket (parent_key (final_path e it)))) /\
  (forall k it st1,
     process_range e (seq 0 k) (init_state t) = Ok st1 ->
     t !! k = Some it ->
     folders st1 !! parent_key (final_path e it) = None ->
     _loadCodeTreeInternal h o tr
     = Some (Throw (TypeError_no_bucket (parent_key (final_path e it))))) /\
  (parents_first e t ->
   forall key,
     _loadCodeTreeInternal h o tr <> Some (Throw (TypeError_no_bucket key))).
Proof.
  intros Hprep Hnode.
  assert (lazy e = false) as Hlazy.
  { destruct (prepare_inv _ _ _ _ _ Hprep) as (_ & _ & Hn).
    unfold lazy. rewrite Hn, Hnode. reflexivity. }
  assert (forall st k it,
            folders st !! parent_key (final_path e it) = None ->
            process_item e st k it
            = Throw (TypeError_no_bucket (parent_key (final_path e it))))
    as Hmissing.
  { intros st k it H.
    assert (bucket_key e (final_path e it) = parent_key (final_path e it))
      as Hkey by (unfold bucket_key; by rewrite Hlazy).
    rewrite <- Hkey in *. by apply process_item_missing. }
  split; [exact Hmissing|]. split.
  - intros k it st1 Hbefore Hit Hnone. unfold _loadCodeTreeInternal.
    rewrite loadCodeTree_chunked_sequential by (unfold CHUNK_SIZE; lia).
    unfold load_sequential. rewrite Hprep. cbn [mbind Res_bind].
    unfold sequential_pass.
    apply lookup_lt_Some in Hit as Hk.
    replace (length t) with (k + S (length t - S k))%nat by lia.
    rewrite seq_app, process_range_app, Hbefore. cbn [mbind Res_bind].
    pose proof (store_inv_range e t k 0 _ _ (store_inv_init e t)
                  ltac:(lia) Hbefore) as Hinv.
    simpl. rewrite (inv_todo _ _ _ _ Hinv k) by lia.
    by rewrite Hit, (Hmissing _ _ _ Hnone).
  - intros Hpf key. unfold _loadCodeTreeInternal.
    rewrite loadCodeTree_chunked_sequential by (unfold CHUNK_SIZE; lia).
    unfold load_sequential. rewrite Hprep. cbn [mbind Res_bind].
    unfold sequential_pass.
    pose proof (parents_first_range e t (length t) 0 (init_state t) Hlazy Hpf
                  (store_inv_init e t) (folders_inv_init e t) ltac:(lia))
      as Hrange.
    destruct (process_range e (seq 0 (length t)) (init_state t))
      as [st'|x]; cbn [mbind Res_bind]; [discriminate|].
    intros [= ->]. by apply (Hrange key).
Qed.

Lemma parent_bucket_needed_witness :
  process_item (loaded_env (host_of odd_tree ∅) opts0)
    (init_state child_first) 0 (entry (lit "a/b") blob None None None)
  = Throw (TypeError_no_bucket (lit "a"))
  /\
  _loadCodeTreeInternal (host_of odd_tree ∅) opts0 None
  <> Some (Throw (TypeError_no_bucket (lit "docs"))).
Proof.
  destruct (parent_bucket_needed (host_of odd_tree ∅) opts0 None
              (loaded_env (host_of odd_tree ∅) opts0) odd_tree)
    as (Hmissing & _ & Hfirst).
  - vm_compute. reflexivity.
  - reflexivity.
  - split.
    + apply (Hmissing (init_state child_first) 0%nat
               (entry (lit "a/b") blob None None None)).
      vm_compute. reflexivity.
    + apply Hfirst. intros k it Hk.
      destruct k as [|[|[|k]]]; simpl in Hk; try discriminate;
        injection Hk as <-.
      * left. reflexivity.
      * right. exists 0%nat, (entry (lit "docs") tree None None None).
        repeat split; (lia || reflexivity).
      * right. exists 1%nat, (entry (lit "docs/a b") tree None None None).
        repeat split; (lia || reflexivity).
Defined.

End ParentBuckets.

Module RangeFacts.
Import JS Adapter Spec SpecTree.
Import JSFacts RenderFacts ChunkFacts StoreFacts.

(** Induction over the sequential pass: a property of the store that
    holds at the start and that the loop body keeps holds at the end. *)
Lemma range_induction (e : Env) (t : list Item) (P : nat -> State -> Prop) :
  P 0%nat (init_state t) ->
  (forall k st st' it,
     store_inv e t k st -> P k st -> t !! k = Some it ->
     process_item e st k it = Ok st' -> P (S k) st') ->
  forall st,
    process_range e (seq 0 (length t)) (init_state t) = Ok st ->
    P (length t) st.
Proof.
  intros H0 Hstep.
  assert (forall m k st st',
            store_inv e t k st -> P k st -> (k + m <= length t)%nat ->
            process_range e (seq k m) st = Ok st' -> P (k + m)%nat st')
    as Hgen.
  { induction m as [|m IH]; intros k st st' Hinv HP Hkm; simpl.
    - intros [= <-]. by rewrite Nat.add_0_r.
    - destruct (lookup_lt_is_Some_2 t k) as [it Hit]; [lia|].
      rewrite (inv_todo _ _ _ _ Hinv k) by lia. rewrite Hit.
      intros H. apply bind_Ok_inv in H as (st1 & H1 & H).
      rewrite Nat.add_succ_r. apply (IH (S k) st1); [| |lia|done].
      + by eapply store_inv_step.
      + by eapply Hstep. }
  intros st H.
  apply (Hgen (length t) 0%nat (init_state t) st); try done.
  apply store_inv_init.
Qed.

(** A load that delivers a tree has fetched a list and run the
    sequential pass over it. *)
Lemma load_delivers_inv (h : Host) (o : Opts) (tr : option (Item -> Item))
    (root : option nat) (st : State) :
  _loadCodeTreeInternal h o tr = Some (Ok (CbTree root st)) ->
  exists e t,
    prepare h o tr = Ok (inr (e, t)) /\
    process_range e (seq 0 (length t)) (init_state t) = Ok st /\
    root = folders st !! [].
Proof.
  unfold _loadCodeTreeInternal.
  rewrite loadCodeTree_chunked_sequential by (unfold CHUNK_SIZE; lia).
  intros [= H]. unfold load_sequential in H.
  apply bind_Ok_inv in H as ([err|[e t]] & Hprep & H); [discriminate|].
  apply bind_Ok_inv in H as (st1 & Hrange & H).
  unfold deliver_tree in H. injection H as <- <-.
  by exists e, t.
Qed.

Lemma lazy_false (h : Host) (o : Opts) (tr : option (Item -> Item))
    (e : Env) (t : list Item) :
  prepare h o tr = Ok (inr (e, t)) -> node o = None -> lazy e = false.
Proof.
  intros Hprep Hnode. destruct (prepare_inv _ _ _ _ _ Hprep) as (_ & _ & Hn).
  unfold lazy. by rewrite Hn, Hnode.
Qed.

Lemma lazy_true (h : Host) (o : Opts) (tr : option (Item -> Item))
    (e : Env) (t : list Item) (nd : Node) :
  prepare h o tr = Ok (inr (e, t)) -> node o = Some nd -> lazy e = true.
Proof.
  intros Hprep Hnode. destruct (prepare_inv _ _ _ _ _ Hprep) as (_ & _ & Hn).
  unfold lazy. rewrite Hn, Hnode. apply bool_decide_eq_true. eauto.
Qed.

(** The same for a pass that ends with an exception: the loop body has
    thrown it on some entry, in a store that has the property. *)
Lemma range_throw (e : Env) (t : list Item) (P : nat -> State -> Prop)
    (x : Exn) :
  P 0%nat (init_state t) ->
  (forall k st st' it,
     store_inv e t k st -> P k st -> t !! k = Some it ->
     process_item e st k it = Ok st' -> P (S k) st') ->
  process_range e (seq 0 (length t)) (init_state t) = Throw x ->
  exists k st it,
    store_inv e t k st /\ P k st /\ t !! k = Some it /\
    process_item e st k it = Throw x.
Proof.
  intros H0 Hstep.
  assert (forall m k st,
            store_inv e t k st -> P k st -> (k + m <= length t)%nat ->
            process_range e (seq k m) st = Throw x ->
            exists k' st' it,
              store_inv e t k' st' /\ P k' st' /\ t !! k' = Some it /\
              process_item e st' k' it = Throw x) as Hgen.
  { induction m as [|m IH]; intros k st Hinv HP Hkm; simpl; [discriminate|].
    destruct (lookup_lt_is_Some_2 t k) as [it Hit]; [lia|].
    rewrite (inv_todo _ _ _ _ Hinv k) by lia. rewrite Hit.
    destruct (process_item e st k it) as [st1|y] eqn:E; simpl.
    - apply (IH (S k) st1); [| |lia].
      + by eapply store_inv_step.
      + by eapply Hstep.
    - intros [= ->]. by exists k, st, it. }
  apply (Hgen (length t) 0%nat (init_state t)); try done.
  apply store_inv_init.
Qed.

(** A load that throws has thrown while it resolved the branch, or in
    the sequential pass over the list it has fetched. *)
Lemma load_throws_inv (h : Host) (o : Opts) (tr : option (Item -> Item))
    (x : Exn) :
  _loadCodeTreeInternal h o tr = Some (Throw x) ->
  prepare h o tr = Throw x \/
  exists e t,
    prepare h o tr = Ok (inr (e, t)) /\
    process_range e (seq 0 (length t)) (init_state t) = Throw x.
Proof.
  unfold _loadCodeTreeInternal.
  rewrite loadCodeTree_chunked_sequential by (unfold CHUNK_SIZE; lia).
  intros [= H]. unfold load_sequential in H.
  destruct (prepare h o tr) as [[err|[e t]]|y]; simpl in H;
    [discriminate| |left; congruence].
  right. exists e, t. split; [done|]. unfold sequential_pass in H.
  destruct (process_range e _ _); simpl in H; [discriminate|congruence].
Qed.

End RangeFacts.

Module TreeFacts.
Import JS Adapter Spec SpecTree.
Import JSFacts RenderFacts ChunkFacts StoreFacts RangeFacts.

Lemma lastIndexOf_from_bound (pat s : str) (i last : Z) :
  pat <> [] -> last < i + len s ->
  lastIndexOf_from pat s i last < i + len s.
Proof.
  intros Hpat. revert i last. unfold len.
  induction s as [|c s IH]; intros i last Hlast.
  - destruct pat; [done|]. simpl in *. lia.
  - cbn [lastIndexOf_from length]. rewrite Nat2Z.inj_succ.
    replace (i + Z.succ (Z.of_nat (length s)))
      with ((i + 1) + Z.of_nat (length s)) by lia.
    apply IH. cbn [length] in Hlast.
    destruct (startsWith pat (c :: s)); lia.
Qed.

(** The key of the parent directory is shorter than the path. *)
Lemma parent_key_neq (p : str) : p <> [] -> parent_key p <> p.
Proof.
  intros Hp H. apply (f_equal length) in H.
  unfold parent_key, substring in H.
  pose proof (lastIndexOf_from_bound (lit "/") p 0 (-1) ltac:(done)) as Hb.
  unfold lastIndexOf in H. unfold len in *.
  assert (0 < length p)%nat by (destruct p; [done|simpl; lia]).
  rewrite length_take, length_drop in H. unfold clamp in H. lia.
Qed.

Lemma members_S (e : Env) (t : list Item) (key : str) (k : nat) :
  members e t key (S k)
  = members e t key k
    ++ (if decide (entry_key e t k = Some key) then [k] else []).
Proof.
  unfold members. by rewrite seq_S, filter_app.
Qed.

Lemma members_nil (e : Env) (t : list Item) (key : str) (k : nat) :
  (forall i, (i < k)%nat -> entry_key e t i <> Some key) ->
  members e t key k = [].
Proof.
  intros H. induction k as [|k IH]; [done|].
  rewrite members_S, IH by (intros i Hi; apply H; lia).
  destruct (decide _) as [E|_]; [|done]. by apply H in E; [|lia].
Qed.

Lemma type_branch_children (e : Env) (st1 st2 : State) (it : Item)
    (p name text1 txt : str) (ch : Children) (attr : option Attr) :
  type_branch e st1 it p name text1 = Ok (st2, ch, txt, attr) ->
  children_step e st1 it p = (st2, ch).
Proof.
  unfold type_branch. intros H.
  destruct (children_step e st1 it p) as [s c]. destruct (type it).
  - by apply bind_Ok_inv in H as (a & _ & [= <- <- _ _]).
  - by apply bind_Ok_inv in H as (a & _ & [= <- <- _ _]).
  - by apply bind_Ok_inv in H as ([x a] & _ & [= <- <- _ _]).
Qed.

(** The [children] of the entry the loop body has processed. *)
Lemma process_item_children (e : Env) (st st' : State) (k : nat)
    (item : Item) :
  process_item e st k item = Ok st' ->
  exists nd, items st' = <[k := nd]> (items st) /\
    children nd
    = match type (transformed e item) with
      | tree => if lazy e then LazyChildren
                else ChildArray (length (arrays st))
      | _ => children (transformed e item)
      end.
Proof.
  intros H. apply process_item_inv in H
    as (st1 & st2 & ch & txt & attr & H1 & H2 & ->).
  apply push_item_inv in H1 as (r & _ & ->).
  pose proof (type_branch_children _ _ _ _ _ _ _ _ _ _ H2) as Hc.
  eexists. split.
  - simpl. apply type_branch_store in H2 as [[_ ->] | (_ & _ & -> & _)];
      reflexivity.
  - simpl. unfold children_step in Hc. simpl in Hc.
    destruct (type (transformed e item)); [by injection Hc | | by injection Hc].
    destruct (lazy e); injection Hc as _ <-; [done|].
    by rewrite length_alter.
Qed.

End TreeFacts.

Module TreeShape.
Import JS Adapter Spec SpecTree Examples.
Import JSFacts RenderFacts ChunkFacts StoreFacts ParentBuckets RangeFacts TreeFacts.

Lemma bucket_inv_init (e : Env) (t : list Item) :
  bucket_inv e t 0 (init_state t).
Proof.
  split; simpl.
  - intros key r H. apply lookup_singleton_Some in H as [<- <-]. done.
  - intros key1 key2 r H1 H2.
    apply lookup_singleton_Some in H1 as [<- _].
    by apply lookup_singleton_Some in H2 as [<- _].
  - intros key [r H]. apply lookup_singleton_Some in H as [<- _]. by left.
  - intros i key Hi. lia.
  - intros j d Hj. lia.
Qed.

Lemma bucket_inv_step (e : Env) (t : list Item) (k : nat) (st st' : State)
    (it : Item) :
  lazy e = false -> distinct_dirs e t -> named_dirs e t ->
  store_inv e t k st -> bucket_inv e t k st ->
  t !! k = Some it ->
  process_item e st k it = Ok st' ->
  bucket_inv e t (S k) st'.
Proof.
  intros Hlazy Hdistinct Hnamed Hinv [Hmem Hinj Hkeys Hdone Hdirs] Hit H.
  pose proof (process_item_store _ _ _ _ _ H) as (r & Hr & Hst).
  pose proof (process_item_children _ _ _ _ _ H) as (nd & Hitems & Hch).
  unfold bucket_key in Hr. rewrite Hlazy in Hr.
  fold (parent_key (final_path e it)) in Hr.
  assert (entry_key e t k = Some (parent_key (final_path e it))) as Hkey
    by (unfold entry_key; by rewrite Hit).
  pose proof (inv_refs _ _ _ _ Hinv) as Hrefs.
  (* what the push does to the array of a registered key *)
  assert (forall key r', folders st !! key = Some r' ->
            alter (fun l => l ++ [k]) r (arrays st) !! r'
            = Some (members e t key (S k))) as Hpush.
  { intros key r' Hk. rewrite members_S, Hkey.
    destruct (decide (r' = r)) as [->|Hne].
    - rewrite (Hinj _ _ _ Hk Hr).
      rewrite list_lookup_alter_eq, (Hmem _ _ Hr).
      by rewrite decide_True.
    - rewrite list_lookup_alter_ne by done. rewrite (Hmem _ _ Hk).
      rewrite decide_False; [by rewrite app_nil_r|].
      intros [= E]. rewrite <- E in Hk. congruence. }
  destruct Hst as [(Htree & Harr & Hfol) | (Htree & _ & Harr & Hfol)].
  - (* no directory is registered *)
    split.
    + intros key r' Hk. rewrite Hfol in Hk. rewrite Harr. by apply Hpush.
    + intros key1 key2 r'. rewrite Hfol. apply Hinj.
    + intros key Hk. rewrite Hfol in Hk.
      destruct (Hkeys key Hk) as [?|(j & d & ? & ?)]; [by left|].
      right. exists j, d. split; [lia|done].
    + intros i key Hi Hk. rewrite Hfol.
      destruct (decide (i = k)) as [->|Hne].
      * rewrite Hkey in Hk. injection Hk as <-. eauto.
      * apply (Hdone i); [lia|done].
    + intros j d Hj Hd Ht. destruct (decide (j = k)) as [->|Hne].
      * rewrite Hit in Hd. injection Hd as <-.
        rewrite (Htree Ht) in Hlazy. discriminate.
      * destruct (Hdirs j d ltac:(lia) Hd Ht) as (nd' & r' & ? & ? & ?).
        exists nd', r'. rewrite Hitems, Hfol.
        by rewrite list_lookup_insert_ne.
  - (* the entry is a directory: its path is registered *)
    assert (final_path e it <> []) as Hne0 by (by eapply Hnamed).
    assert (folders st !! final_path e it = None) as Hfresh.
    { destruct (folders st !! final_path e it) eqn:E; [|done].
      destruct (Hkeys (final_path e it)) as [?|(j & d & Hj & Hd & Ht & Hp)];
        [eauto|done|].
      pose proof (Hdistinct j k d it Hd Hit Ht Htree Hp). lia. }
    assert (members e t (final_path e it) (S k) = []) as Hempty.
    { apply members_nil. intros i Hi Hk.
      destruct (decide (i = k)) as [->|Hne].
      - rewrite Hkey in Hk. injection Hk as Hk.
        by apply parent_key_neq in Hk.
      - destruct (Hdone i (final_path e it) ltac:(lia) Hk) as [x Hx].
        congruence. }
    split.
    + intros key r' Hk. rewrite Hfol in Hk. rewrite Harr.
      destruct (decide (final_path e it = key)) as [<-|Hne].
      * rewrite lookup_insert_eq in Hk. injection Hk as <-.
        rewrite Hempty.
        rewrite lookup_app_r by (rewrite length_alter; lia).
        by rewrite length_alter, Nat.sub_diag.
      * rewrite lookup_insert_ne in Hk by done.
        rewrite lookup_app_l
          by (rewrite length_alter; by eapply Hrefs).
        by apply Hpush.
    + intros key1 key2 r'. rewrite Hfol.
      destruct (decide (final_path e it = key1)) as [<-|Hne1];
        destruct (decide (final_path e it = key2)) as [<-|Hne2];
        rewrite ?lookup_insert_eq, ?lookup_insert_ne by done; try done.
      * intros [= <-] H2. apply Hrefs in H2. lia.
      * intros H1 [= <-]. apply Hrefs in H1. lia.
      * apply Hinj.
    + intros key Hk. rewrite Hfol in Hk.
      destruct (decide (final_path e it = key)) as [<-|Hne].
      * right. exists k, it. split; [lia|done].
      * rewrite lookup_insert_ne in Hk by done.
        destruct (Hkeys key Hk) as [?|(j & d & ? & ?)]; [by left|].
        right. exists j, d. split; [lia|done].
    + intros i key Hi Hk. rewrite Hfol. apply lookup_insert_is_Some.
      destruct (decide (final_path e it = key)); [by left|right].
      split; [done|]. destruct (decide (i = k)) as [->|Hne].
      * rewrite Hkey in Hk. injection Hk as <-. eauto.
      * apply (Hdone i); [lia|done].
    + intros j d Hj Hd Ht. destruct (decide (j = k)) as [->|Hne].
      * rewrite Hit in Hd. injection Hd as <-.
        exists nd, (length (arrays st)). rewrite Hitems, Hfol.
        rewrite list_lookup_insert_eq
          by (rewrite (inv_length _ _ _ _ Hinv); by eapply lookup_lt_Some).
        rewrite Hch, Htree, Hlazy. by rewrite lookup_insert_eq.
      * destruct (Hdirs j d ltac:(lia) Hd Ht) as (nd' & r' & ? & ? & ?).
        exists nd', r'. rewrite Hitems, Hfol.
        rewrite list_lookup_insert_ne by done.
        rewrite lookup_insert_ne; [done|].
        intros E. symmetry in E.
        pose proof (Hdistinct j k d it Hd Hit Ht Htree E). lia.
Qed.

(** X1. In a load of the full forest that delivers a tree, when no two
    directory entries have the same path and none has the empty path,
    the delivered array holds exactly the entries without parent
    directory, and the [children] of every directory entry is an array
    that holds exactly the entries whose parent directory is the path of
    that entry, all in the order of the list. *)
Theorem full_load_tree_shape (h : Host) (o : Opts)
    (tr : option (Item -> Item)) (e : Env) (t : list Item)
    (root : option nat) (st : State) :
  prepare h o tr = Ok (inr (e, t)) ->
  node o = None ->
  distinct_dirs e t ->
  named_dirs e t ->
  _loadCodeTreeInternal h o tr = Some (Ok (CbTree root st)) ->
  (exists r0, root = Some r0 /\
     arrays st !! r0 = Some (members e t [] (length t))) /\
  (forall j d, t !! j = Some d -> type (transformed e d) = tree ->
     exists nd r, items st !! j = Some nd /\
       children nd = ChildArray r /\
       arrays st !! r = Some (members e t (final_path e d) (length t))).
Proof.
  intros Hprep Hnode Hdistinct Hnamed Hload.
  pose proof (lazy_false _ _ _ _ _ Hprep Hnode) as Hlazy.
  apply load_delivers_inv in Hload as (e' & t' & Hprep' & Hrange & ->).
  rewrite Hprep in Hprep'. injection Hprep' as <- <-.
  pose proof (range_induction e t
                (fun k s => bucket_inv e t k s /\ folders_inv e t k s))
    as Hind.
  destruct (Hind (conj (bucket_inv_init e t) (folders_inv_init e t)))
    with (st := st) as [[Hmem _ _ _ Hdirs] [[r0 Hroot] _]]; [|done|].
  { intros k s s' it Hinv [Hb Hf] Hit H. split.
    - by eapply bucket_inv_step.
    - by eapply folders_inv_step. }
  split.
  - exists r0. split; [done|]. by apply Hmem.
  - intros j d Hd Ht.
    destruct (Hdirs j d) as (nd & r & Hnd & Hch & Hr);
      [by eapply lookup_lt_Some|done|done|].
    exists nd, r. repeat split; try done. by apply Hmem.
Qed.

Lemma full_load_tree_shape_witness :
  (exists r0,
     folders (loaded_store (host_of odd_tree ∅) opts0) !! [] = Some r0 /\
     arrays (loaded_store (host_of odd_tree ∅) opts0) !! r0
     = Some (members (loaded_env (host_of odd_tree ∅) opts0) odd_tree []
               (length odd_tree))) /\
  (forall j d, odd_tree !! j = Some d ->
     type (transformed (loaded_env (host_of odd_tree ∅) opts0) d) = tree ->
     exists nd r,
       items (loaded_store (host_of odd_tree ∅) opts0) !! j = Some nd /\
       children nd = ChildArray r /\
       arrays (loaded_store (host_of odd_tree ∅) opts0) !! r
       = Some (members (loaded_env (host_of odd_tree ∅) opts0) odd_tree
                 (final_path (loaded_env (host_of odd_tree ∅) opts0) d)
                 (length odd_tree))).
Proof.
  apply (full_load_tree_shape (host_of odd_tree ∅) opts0 None
           (loaded_env (host_of odd_tree ∅) opts0) odd_tree
           (folders (loaded_store (host_of odd_tree ∅) opts0) !! [])
           (loaded_store (host_of odd_tree ∅) opts0)).
  - vm_compute. reflexivity.
  - reflexivity.
  - intros i j di dj Hi Hj Hti Htj Hp.
    destruct i as [|[|[|i]]]; simpl in Hi; try discriminate;
      injection Hi as <-;
      destruct j as [|[|[|j]]]; simpl in Hj; try discriminate;
      injection Hj as <-; try reflexivity; try discriminate.
  - intros j d Hj Ht Hp.
    destruct j as [|[|[|j]]]; simpl in Hj; try discriminate;
      injection Hj as <-; discriminate.
  - vm_compute. reflexivity.
Defined.

End TreeShape.

Module LazyLoad.
Import JS Adapter Spec SpecTree SpecLazy Examples ExamplesMore.
Import JSFacts RenderFacts ChunkFacts StoreFacts ParentBuckets RangeFacts TreeFacts.

(** The loop body keeps the invariant of a lazy load. *)
Lemma lazy_step (e : Env) (t : list Item) (k : nat) (st st' : State)
    (it : Item) :
  lazy e = true ->
  store_inv e t k st -> lazy_inv e t k st ->
  t !! k = Some it ->
  process_item e st k it = Ok st' ->
  lazy_inv e t (S k) st'.
Proof.
  intros Hlazy Hinv (Harr & Hfol & Hch) Hit H.
  pose proof (process_item_store _ _ _ _ _ H) as (r & Hr & Hst).
  pose proof (process_item_children _ _ _ _ _ H) as (nd & Hitems & Hnd).
  unfold bucket_key in Hr. rewrite Hlazy, Hfol in Hr.
  apply lookup_singleton_Some in Hr as [_ <-].
  destruct Hst as [(_ & Harr' & Hfol') | (_ & Hl & _)];
    [|rewrite Hl in Hlazy; discriminate].
  split; [|split].
  - rewrite Harr', Harr, seq_S. reflexivity.
  - by rewrite Hfol'.
  - intros j d Hj Hd. rewrite Hitems.
    destruct (decide (j = k)) as [->|Hne].
    + rewrite Hit in Hd. injection Hd as <-.
      exists nd. rewrite list_lookup_insert_eq
        by (rewrite (inv_length _ _ _ _ Hinv); by eapply lookup_lt_Some).
      split; [done|]. by rewrite Hnd, Hlazy.
    + rewrite list_lookup_insert_ne by done. apply Hch; [lia|done].
Qed.

(** X2. In the lazy load of one node nothing is ever missing from
    [folders]: the load never fails for want of a bucket. When it
    delivers, it delivers the array it started with, which holds every
    entry of the list in the order of the list; no other array exists;
    every directory entry carries the lazy marker instead of an array,
    and the other entries keep the [children] they came with. *)
Theorem lazy_load_flat (h : Host) (o : Opts) (tr : option (Item -> Item))
    (e : Env) (t : list Item) (nd0 : Node) :
  prepare h o tr = Ok (inr (e, t)) ->
  node o = Some nd0 ->
  (forall key,
     _loadCodeTreeInternal h o tr <> Some (Throw (TypeError_no_bucket key)))
  /\
  (forall root st,
     _loadCodeTreeInternal h o tr = Some (Ok (CbTree root st)) ->
     root = Some 0%nat /\
     arrays st = [seq 0 (length t)] /\
     forall j d, t !! j = Some d ->
       exists nd, items st !! j = Some nd /\
         children nd
         = match type (transformed e d) with
           | tree => LazyChildren
           | _ => children (transformed e d)
           end).
Proof.
  intros Hprep Hnode.
  pose proof (lazy_true _ _ _ _ _ _ Hprep Hnode) as Hlazy.
  assert (lazy_inv e t 0 (init_state t)) as H0.
  { split; [done|]. split; [done|]. intros j d Hj. lia. }
  assert (forall k s s' it,
            store_inv e t k s -> lazy_inv e t k s -> t !! k = Some it ->
            process_item e s k it = Ok s' -> lazy_inv e t (S k) s') as Hstep.
  { intros k s s' it Hinv Hl Hit H. by eapply lazy_step. }
  split.
  - intros key Hload. apply load_throws_inv in Hload as [Hthrow|Hpass].
    + rewrite Hprep in Hthrow. discriminate.
    + destruct Hpass as (e' & t' & Hprep' & Hrange).
      rewrite Hprep in Hprep'. injection Hprep' as <- <-.
      apply (range_throw e t (lazy_inv e t)) in Hrange
        as (k & s & it & _ & (_ & Hfol & _) & _ & Hthrow); [|done|done].
      apply process_item_no_bucket in Hthrow.
      unfold bucket_key in Hthrow. rewrite Hlazy, Hfol in Hthrow.
      by rewrite lookup_singleton_eq in Hthrow.
  - intros root st Hload.
    apply load_delivers_inv in Hload as (e' & t' & Hprep' & Hrange & ->).
    rewrite Hprep in Hprep'. injection Hprep' as <- <-.
    apply (range_induction e t (lazy_inv e t)) in Hrange
      as (Harr & Hfol & Hch); [|done|done].
    rewrite Hfol, lookup_singleton_eq. repeat split; [done|].
    intros j d Hd. apply Hch; [|done]. by eapply lookup_lt_Some.
Qed.

Lemma lazy_load_flat_witness :
  _loadCodeTreeInternal (host_of lazy_list ∅) opts_lazy None
  <> Some (Throw (TypeError_no_bucket []))
  /\
  arrays (loaded_store (host_of lazy_list ∅) opts_lazy)
  = [seq 0 (length lazy_list)].
Proof.
  destruct (lazy_load_flat (host_of lazy_list ∅) opts_lazy None
              (loaded_env (host_of lazy_list ∅) opts_lazy) lazy_list
              {| node_path := Some (lit "docs") |})
    as [Hnever Hflat].
  - vm_compute. reflexivity.
  - reflexivity.
  - split; [apply Hnever|].
    apply (Hflat (Some 0%nat)
             (loaded_store (host_of lazy_list ∅) opts_lazy)).
    vm_compute. reflexivity.
Defined.

End LazyLoad.

Module FailureFacts.
Import JS Adapter Spec SpecFailure Tactics.
Import JSFacts UriFacts RenderFacts.

Lemma encode_ok_wellformed_below (n : nat) (s e : str) :
  (length s < n)%nat ->
  encodeURIComponent s = Ok e -> isWellFormed s = true.
Proof.
  revert s e. induction n as [|n IH]; intros s e Hn H; [lia|].
  destruct s as [|c s']; [done|]. simpl in *.
  destruct (unreserved c) eqn:U.
  { destruct (unreserved_not_surrogate c U) as [-> ->].
    apply bind_Ok_inv in H as (r & Hr & _). apply (IH s' r); [lia|done]. }
  destruct (is_low_surrogate c); [discriminate|].
  destruct (is_high_surrogate c).
  - destruct s' as [|d s'']; [discriminate|]. simpl in Hn.
    destruct (is_low_surrogate d); [|discriminate].
    apply bind_Ok_inv in H as (r & Hr & _). simpl.
    apply (IH s'' r); [lia|done].
  - apply bind_Ok_inv in H as (r & Hr & _). apply (IH s' r); [lia|done].
Qed.

(** [encodeURIComponent] succeeds exactly on the strings without lone
    surrogate. *)
Lemma encode_ok_iff (s : str) :
  (exists e, encodeURIComponent s = Ok e) <-> isWellFormed s = true.
Proof.
  split; [|apply encode_wellformed].
  intros [e H].
  apply (encode_ok_wellformed_below (S (length s)) s e); [lia|done].
Qed.

Lemma split_head (sep d : Z) (s seg : str) (segs : list str) :
  split sep s = (d :: seg) :: segs ->
  exists s', s = d :: s' /\ d <> sep /\ split sep s' = seg :: segs.
Proof.
  destruct s as [|c s']; simpl; [discriminate|].
  destruct (Z.eqb_spec c sep); [discriminate|].
  pose proof (split_nonempty sep s') as Hne.
  destruct (split sep s') as [|x xs] eqn:E; [done|].
  intros [= -> -> ->]. by exists s'.
Qed.

Lemma segments_wellformed_below (n : nat) (s : str) :
  (length s < n)%nat ->
  Forall (fun seg => isWellFormed seg = true) (split 47 s) ->
  isWellFormed s = true.
Proof.
  revert s. induction n as [|n IH]; intros s Hn H; [lia|].
  destruct s as [|c s']; [done|]. simpl in Hn. cbn [split] in H.
  destruct (Z.eqb_spec c 47) as [->|Hc].
  { apply Forall_cons in H as [_ H]. cbn [isWellFormed].
    change (is_low_surrogate 47) with false.
    change (is_high_surrogate 47) with false. apply IH; [lia|done]. }
  pose proof (split_nonempty 47 s') as Hne.
  destruct (split 47 s') as [|seg segs] eqn:Es; [done|].
  apply Forall_cons in H as [Hseg Hsegs]. cbn [isWellFormed] in *.
  destruct (is_low_surrogate c); [discriminate|].
  destruct (is_high_surrogate c).
  - destruct seg as [|d seg']; [discriminate|].
    apply andb_true_iff in Hseg as [Hd Hseg'].
    apply split_head in Es as (s'' & -> & _ & Es). rewrite Hd. simpl.
    simpl in Hn. apply IH; [lia|]. rewrite Es. by constructor.
  - apply IH; [lia|]. rewrite Es. by constructor.
Qed.

(** A path has no lone surrogate exactly when none of its segments has
    one. *)
Lemma segments_wellformed_iff (s : str) :
  Forall (fun seg => isWellFormed seg = true) (split 47 s)
  <-> isWellFormed s = true.
Proof.
  split; [|apply split_wellformed].
  apply (segments_wellformed_below (S (length s))). lia.
Qed.

Lemma encoded_path_ok_iff (p : str) :
  (exists enc, encoded_path p = Ok enc) <-> isWellFormed p = true.
Proof.
  rewrite <- segments_wellformed_iff. unfold encoded_path. split.
  - intros [enc H]. apply bind_Ok_inv in H as (segs & H & _).
    apply mapM_Ok_Forall2 in H.
    induction H as [|x y l l' Hxy _ IH]; constructor; [|done].
    apply encode_ok_iff. eauto.
  - intros H. destruct (mapM_total encodeURIComponent (split 47 p))
      as [segs ->]; [|simpl; eauto].
    eapply Forall_impl; [exact H|]. intros seg. apply encode_ok_iff.
Qed.

Lemma item_a_attr_ok_iff (r : Repo) (t : EntryType) (p name b : str)
    (u : option str) (pa : option PatchInfo) :
  (exists a, item_a_attr r t p name b u pa = Ok a)
  <-> diff_link pa = true \/ isWellFormed p = true.
Proof.
  rewrite <- encoded_path_ok_iff. unfold item_a_attr, diff_link.
  destruct pa as [q|]; [destruct (diffId q) as [d|]|]; simpl.
  - split; [by left|eauto].
  - split.
    + intros [a H]. right. destruct (encoded_path p); [eauto|discriminate].
    + intros [H|[enc ->]]; [discriminate|]. simpl. eauto.
  - split.
    + intros [a H]. right. destruct (encoded_path p); [eauto|discriminate].
    + intros [H|[enc ->]]; [discriminate|]. simpl. eauto.
Qed.

Lemma submodule_branch_ok_iff (e : Env) (p name text0 : str)
    (sh : option str) (attr0 : option Attr) :
  (exists r, submodule_branch (host e) (submodules e) p name sh text0 attr0
             = Ok r)
  <-> match submodules e !! p with
      | Some u => github_submodule e p = true -> is_Some sh
      | None => inherited_key p = false
      end.
Proof.
  unfold submodule_branch, lookup_submodule, github_submodule, inherited_key.
  destruct (submodules e !! p) as [u|].
  - cbn [mbind Res_bind]. rewrite indexOf_truthy.
    destruct (truthy_str u); simpl.
    + destruct (occursb (lit "github.com") u).
      * destruct sh as [s|]; simpl.
        -- split; eauto.
        -- split; [intros [r H]; discriminate|].
           intros H. by destruct (H eq_refl).
      * split; [discriminate|eauto].
    + split; [discriminate|eauto].
  - destruct (existsb (str_eqb p) Object_prototype_keys);
      cbn [mbind Res_bind]; split; try done; eauto.
    intros [r H]. discriminate.
Qed.

End FailureFacts.

Module Failure.
Import JS Adapter Spec SpecFailure Examples ExamplesMore.
Import JSFacts UriFacts RenderFacts FailureFacts.

(** X3. The loop body returns normally on an entry exactly when
    [folders] has an array under the key of the entry and the entry can
    be rendered: a file or directory must link to a diff or have a path
    without lone surrogate, a submodule with a GitHub URL must have a
    sha, and the path of a submodule without URL must not be the name of
    a member of [Object.prototype]. In every other case it throws. *)
Theorem process_item_succeeds_iff (e : Env) (st : State) (k : nat)
    (it : Item) :
  (exists st', process_item e st k it = Ok st')
  <-> is_Some (folders st !! bucket_key e (final_path e it))
      /\ renders e it.
Proof.
  unfold process_item, push_item, renders.
  destruct (folders st !! bucket_key e (final_path e it)) as [r|];
    cbn [mbind Res_bind].
  2: { split; [intros [st' H]; discriminate|]. intros [[x Hx] _]. done. }
  set (st1 := {| items := items st;
                 arrays := alter (fun l => l ++ [k]) r (arrays st);
                 folders := folders st |}).
  unfold type_branch.
  destruct (children_step e st1 (transformed e it) (final_path e it))
    as [st2 ch].
  destruct (type (transformed e it)) eqn:Ht.
  - rewrite <- (item_a_attr_ok_iff (repo (opts e)) blob (final_path e it)
                 (item_name (final_path e it)) (branch_enc e)
                 (url (transformed e it))).
    destruct (item_a_attr _ _ _ _ _ _ _) as [a|x]; cbn [mbind Res_bind].
    + split; eauto.
    + split; [intros [st' H]; discriminate|].
      intros [_ [a H]]. discriminate.
  - rewrite <- (item_a_attr_ok_iff (repo (opts e)) tree (final_path e it)
                 (item_name (final_path e it)) (branch_enc e)
                 (url (transformed e it))).
    destruct (item_a_attr _ _ _ _ _ _ _) as [a|x]; cbn [mbind Res_bind].
    + split; eauto.
    + split; [intros [st' H]; discriminate|].
      intros [_ [a H]]. discriminate.
  - rewrite <- (submodule_branch_ok_iff e (final_path e it)
                 (item_name (final_path e it))
                 (patched_text (item_name (final_path e it))
                    (patch (transformed e it)))
                 (sha (transformed e it)) (a_attr (transformed e it))).
    destruct (submodule_branch _ _ _ _ _ _ _) as [[txt attr]|x];
      cbn [mbind Res_bind].
    + split; eauto.
    + split; [intros [st' H]; discriminate|].
      intros [_ [a H]]. discriminate.
Qed.

End Failure.

Module BranchFacts.
Import JS Adapter Spec Tactics.
Import JSFacts UriFacts RenderFacts.

Lemma hexval_range (c v : Z) : hexval c = Some v -> 0 <= v < 16.
Proof.
  unfold hexval. intros H.
  repeat (case_match; try discriminate); injection H as <-; zbool; lia.
Qed.

Lemma octet_range (h l b : Z) : octet h l = Some b -> 0 <= b < 256.
Proof.
  unfold octet. intros H.
  destruct (hexval h) as [x|] eqn:Hx; [|discriminate].
  destruct (hexval l) as [y|] eqn:Hy; [|discriminate].
  injection H as <-. apply hexval_range in Hx, Hy. lia.
Qed.

Lemma continuation_range (p h l b : Z) :
  continuation p h l = Some b -> 0 <= b < 64.
Proof.
  unfold continuation. intros H.
  repeat (case_match; try discriminate). injection H as <-. zbool. lia.
Qed.

Lemma units_code_units (v : Z) :
  0 <= v <= 1114111 -> Forall code_unit (units v).
Proof.
  intros H. unfold units, code_unit.
  destruct (Z.ltb_spec v 65536); repeat constructor;
    Z.div_mod_to_equations; lia.
Qed.

(** What [decodeURIComponent] returns is made of code units. *)
Lemma decode_code_units_below (n : nat) (s d : str) :
  (length s < n)%nat -> Forall code_unit s ->
  decodeURIComponent s = Ok d -> Forall code_unit d.
Proof.
  revert s d. induction n as [|n IH]; intros s d Hn Hs H; [lia|].
  destruct s as [|c s1]; simpl in H; [injection H as <-; constructor|].
  repeat (case_match; try discriminate); subst; simpl in Hn;
    apply bind_Ok_inv in H as (r & Hr & [= <-]);
    repeat match goal with
    | Hs : Forall code_unit (_ :: _) |- _ =>
        apply Forall_cons in Hs as [? Hs]
    end;
    repeat match goal with
    | Ho : octet _ _ = Some _ |- _ => apply octet_range in Ho
    | Hc : continuation _ _ _ = Some _ |- _ => apply continuation_range in Hc
    end;
    try apply Forall_cons; try apply Forall_app;
    (split; [|eapply IH; [|eassumption|eassumption]; lia]);
    try done; try (apply units_code_units; zbool; lia).
  unfold code_unit. zbool. lia.
Qed.

Lemma decode_code_units (s d : str) :
  Forall code_unit s -> decodeURIComponent s = Ok d -> Forall code_unit d.
Proof. apply (decode_code_units_below (S (length s))). lia. Qed.

End BranchFacts.

Module Branch.
Import JS Adapter Spec SpecBranch Examples ExamplesMore Tactics.
Import JSFacts UriFacts RenderFacts BranchFacts.

(** X4. Resolving the encoded branch is idempotent: when it gives [b]
    for a branch name, it gives [b] again for the branch name [b] (an
    encoded name is not encoded twice), and it gives [b] again once [b]
    is stored in the options. *)
Theorem resolve_branch_idempotent (o : Opts) (b : str) :
  Forall code_unit (branch (repo o)) ->
  resolve_branch o = Ok b ->
  resolve_branch (with_branch o b) = Ok b /\
  resolve_branch (set_encodedBranch o b) = Ok b.
Proof.
  intros Hcu H.
  assert ((d ← decodeURIComponent (branch (repo o)); encodeURIComponent d)
          = Ok b ->
          (d ← decodeURIComponent b; encodeURIComponent d) = Ok b) as Hre.
  { intros Hc. apply bind_Ok_inv in Hc as (d & Hd & He).
    rewrite (encode_decode d b); [done| |done].
    by eapply decode_code_units. }
  unfold resolve_branch in *. simpl.
  destruct (encodedBranch o) as [c|] eqn:Ec.
  - destruct (truthy_str c) eqn:Tc.
    + injection H as <-. by rewrite Tc.
    + split; [by apply Hre|]. by destruct (truthy_str b).
  - split; [by apply Hre|]. by destruct (truthy_str b).
Qed.

Lemma resolve_branch_idempotent_witness :
  resolve_branch (with_branch opts_encoded (lit "feature%2Fa%20b"))
  = Ok (lit "feature%2Fa%20b") /\
  resolve_branch (set_encodedBranch opts_encoded (lit "feature%2Fa%20b"))
  = Ok (lit "feature%2Fa%20b").
Proof.
  apply resolve_branch_idempotent.
  - vm_compute. repeat constructor; discriminate.
  - vm_compute. reflexivity.
Defined.

Lemma decode_prefix (pre r : str) :
  Forall (fun c => c <> 37) pre ->
  decodeURIComponent (pre ++ r)
  = (r' ← decodeURIComponent r; Ok (pre ++ r')).
Proof.
  induction 1 as [|c pre Hc _ IH]; simpl app.
  - by destruct (decodeURIComponent r).
  - rewrite decode_cons, IH by done. by destruct (decodeURIComponent r).
Qed.

Lemma decode_bad_escape (rest : str) :
  no_hex_pair rest -> decodeURIComponent (37 :: rest) = Throw URIError.
Proof.
  destruct rest as [|h [|l s2]]; try reflexivity.
  simpl. by intros ->.
Qed.

(** X5. A branch name with a percent sign that does not start an
    escape (no two hexadecimal digits after it) makes the method throw a
    URIError while it resolves the encoded branch: nothing is fetched
    and the callback is never called. *)
Theorem malformed_branch_throws (h : Host) (o : Opts)
    (tr : option (Item -> Item)) (pre rest : str) :
  encodedBranch o = None ->
  branch (repo o) = pre ++ 37 :: rest ->
  Forall (fun c => c <> 37) pre ->
  no_hex_pair rest ->
  prepare h o tr = Throw URIError /\
  _loadCodeTreeInternal h o tr = Some (Throw URIError).
Proof.
  intros Henc Hb Hpre Hrest.
  assert (prepare h o tr = Throw URIError) as Hprep.
  { unfold prepare, resolve_branch. rewrite Henc, Hb.
    by rewrite decode_prefix, decode_bad_escape. }
  split; [done|].
  unfold _loadCodeTreeInternal, loadCodeTree_chunked. by rewrite Hprep.
Qed.

Lemma malformed_branch_throws_witness :
  prepare (host_of odd_tree ∅) opts_percent None = Throw URIError /\
  _loadCodeTreeInternal (host_of odd_tree ∅) opts_percent None
  = Some (Throw URIError).
Proof.
  apply (malformed_branch_throws _ _ _ (lit "100") (lit "done")).
  - reflexivity.
  - reflexivity.
  - repeat constructor; discriminate.
  - reflexivity.
Defined.

End Branch.

Module Sanitize.
Import JS Adapter Spec Examples ExamplesMore Tactics.
Import JSFacts RenderFacts Rendering.




End Sanitize.

Module DownloadFacts.
Import JS Adapter Spec Download Tactics.
Import JSFacts.

Lemma startsWith_segment (w u rest : str) :
  Forall (fun c => c <> 47) w ->
  Forall (fun c => c <> 47) u ->
  startsWith (w ++ [47]) (u ++ 47 :: rest) = true -> u = w.
Proof.
  intros Hw. revert u. induction Hw as [|x w Hx Hw IH]; intros u Hu H.
  - destruct Hu as [|c u Hc Hu]; [done|].
    cbn [startsWith app] in H. apply andb_true_iff in H as [H _].
    zbool. lia.
  - destruct Hu as [|c u Hc Hu]; cbn [startsWith app] in H;
      apply andb_true_iff in H as [H H'].
    + zbool. lia.
    + zbool. subst c. f_equal. by apply IH.
Qed.

Lemma replace_blob_or_src_skip (u s : str) :
  Forall (fun c => c <> 47) u ->
  replace_blob_or_src (u ++ s) = u ++ replace_blob_or_src s.
Proof.
  induction 1 as [|c u Hc Hu IH]; [done|].
  cbn [app]. rewrite <- IH.
  assert (forall t, startsWith (47 :: t) (c :: u ++ s) = false) as Hn.
  { intros t. cbn [startsWith]. apply andb_false_iff. left.
    apply Z.eqb_neq. lia. }
  unfold replace_blob_or_src at 1. fold replace_blob_or_src.
  change (lit "/blob/") with (47 :: lit "blob/").
  change (lit "/src/") with (47 :: lit "src/").
  by rewrite !Hn.
Qed.

Lemma replace_blob_or_src_segment (u s : str) :
  Forall (fun c => c <> 47) u ->
  u <> lit "blob" -> u <> lit "src" ->
  replace_blob_or_src (47 :: u ++ 47 :: s)
  = 47 :: u ++ replace_blob_or_src (47 :: s).
Proof.
  intros Hu Hb Hs. rewrite <- replace_blob_or_src_skip by done.
  assert (forall w, Forall (fun c => c <> 47) w -> u <> w ->
            startsWith (47 :: w ++ [47]) (47 :: u ++ 47 :: s) = false)
    as Hn.
  { intros w Hw Hne.
    destruct (startsWith (47 :: w ++ [47]) _) eqn:E; [|done].
    cbn [startsWith] in E. apply andb_true_iff in E as [_ E].
    by apply startsWith_segment in E. }
  unfold replace_blob_or_src at 1. fold replace_blob_or_src.
  change (lit "/blob/") with (47 :: lit "blob" ++ [47]).
  change (lit "/src/") with (47 :: lit "src" ++ [47]).
  rewrite !Hn; [done| |done| |done];
    vm_compute lit; repeat constructor; lia.
Qed.

Lemma replace_blob_or_src_absent (s : str) :
  occursb (lit "/blob/") s = false ->
  occursb (lit "/src/") s = false ->
  replace_blob_or_src s = s.
Proof.
  induction s as [|c s IH]; [done|].
  intros Hb Hs.
  cbn [occursb] in Hb, Hs.
  apply orb_false_iff in Hb as [Hb Hb'].
  apply orb_false_iff in Hs as [Hs Hs'].
  unfold replace_blob_or_src. fold replace_blob_or_src.
  rewrite Hb, Hs. f_equal. by apply IH.
Qed.

End DownloadFacts.

Module DownloadLink.
Import JS Adapter Spec Download Examples Tactics.
Import JSFacts DownloadFacts.

(** X7. Downloading a file entry: applied to the link of a blob that
    [_getItemHref] built, [downloadFile] opens, in a new tab, the same
    address with its [blob] segment replaced by [raw], whatever the
    branch and the path hold, when the user and repository names have
    no slash and are neither [blob] nor [src]; a path in which neither
    [/blob/] nor [/src/] occurs is opened unchanged. *)
Theorem download_blob_href (r : Repo) (encodedPath encodedBranch fileName : str) :
  Forall (fun c => c <> 47) (username r) ->
  Forall (fun c => c <> 47) (reponame r) ->
  username r <> lit "blob" -> username r <> lit "src" ->
  reponame r <> lit "blob" -> reponame r <> lit "src" ->
  downloadFile (_getItemHref r blob encodedPath encodedBranch) fileName
  = {| link_href :=
         lit "/" ++ username r ++ lit "/" ++ reponame r ++ lit "/raw/"
         ++ encodedBranch ++ lit "/" ++ encodedPath;
       link_target := lit "_blank" |}
  /\ (forall path,
        occursb (lit "/blob/") path = false ->
        occursb (lit "/src/") path = false ->
        link_href (downloadFile path fileName) = path).
Proof.
  intros Hu Hr Hub Hus Hrb Hrs. split.
  - unfold downloadFile, _getItemHref. f_equal.
    change (lit "/") with [47]. cbn [app type_name tmpl_str].
    rewrite replace_blob_or_src_segment by done.
    rewrite replace_blob_or_src_segment by done.
    reflexivity.
  - intros path Hb Hs. by apply replace_blob_or_src_absent.
Qed.

Lemma download_blob_href_witness :
  downloadFile (_getItemHref repo0 blob (lit "src/blob/a.txt") (lit "main"))
    (lit "a.txt")
  = {| link_href :=
         lit "/" ++ username repo0 ++ lit "/" ++ reponame repo0
         ++ lit "/raw/" ++ lit "main" ++ lit "/" ++ lit "src/blob/a.txt";
       link_target := lit "_blank" |}
  /\ (forall path,
        occursb (lit "/blob/") path = false ->
        occursb (lit "/src/") path = false ->
        link_href (downloadFile path (lit "a.txt")) = path).
Proof.
  apply (download_blob_href repo0 (lit "src/blob/a.txt") (lit "main")
           (lit "a.txt"));
    first [ by (vm_compute; repeat constructor; lia)
          | by (vm_compute; intros H; discriminate H) ].
Defined.

End DownloadLink.

Module SshSubmodules.
Import JS Adapter Spec Examples Tactics.
Import JSFacts RenderFacts UrlFacts.

Lemma replace_skip (g : Z) (pat rep u s : str) :
  Forall (fun c => c <> g) u ->
  replace (g :: pat) rep (u ++ s) = u ++ replace (g :: pat) rep s.
Proof.
  induction 1 as [|c u Hc Hu IH]; [done|].
  cbn [app replace startsWith].
  replace (g =? c) with false by (symmetry; apply Z.eqb_neq; lia).
  cbn [andb]. by rewrite IH.
Qed.

Lemma replace_app (pat rep s : str) :
  replace pat rep (pat ++ s) = rep ++ s.
Proof.
  assert (forall t, startsWith pat t = true ->
            replace pat rep t = rep ++ drop (length pat) t) as H.
  { intros [|c t] Ht; cbn [replace]; by rewrite Ht. }
  rewrite H by apply startsWith_app. by rewrite drop_app_length.
Qed.

(** The three replacements on [git@github.com:owner/repo.git] give the
    web URL under the protocol of the page. *)
Lemma normalize_ssh_url (h : Host) (owner rn : str) :
  Forall (fun c => c <> 103) (location_protocol h) ->
  normalize_module_url h
    (lit "git@github.com:" ++ owner ++ lit "/" ++ rn ++ lit ".git")
  = location_protocol h ++ lit "//github.com/" ++ owner ++ lit "/" ++ rn.
Proof.
  intros H. unfold normalize_module_url.
  change (lit "git@github.com:" ++ owner ++ lit "/" ++ rn ++ lit ".git")
    with (lit "git@" ++ (lit "github.com:" ++ owner ++ lit "/" ++ rn
                         ++ lit ".git")).
  unfold replace_git_scheme.
  change (startsWith (lit "git://") (lit "git@" ++ _)) with false.
  cbv iota. rewrite startsWith_app, drop_app_length' by reflexivity.
  rewrite <- app_assoc.
  change (lit "github.com:") with (103 :: lit "ithub.com:").
  rewrite replace_skip by done.
  rewrite (replace_skip 103 _ _ (lit "//"))
    by (vm_compute; repeat constructor; lia).
  rewrite replace_app.
  replace (location_protocol h ++ lit "//" ++ lit "github.com/" ++ owner
           ++ lit "/" ++ rn ++ lit ".git")
    with ((location_protocol h ++ lit "//github.com/" ++ owner ++ lit "/"
           ++ rn) ++ 46 :: lit "git")
    by (rewrite <- !app_assoc; reflexivity).
  by apply strip_dot_git_app.
Qed.

(** X8. A commit entry whose submodule URL has the SSH form
    [git@github.com:owner/repo.git] is rendered like one with the
    [git://] form: its href is the web URL
    [<protocol>//github.com/owner/repo] (the colon after the host name
    becomes a slash) and its text links the name to that URL and the
    first seven characters of the sha to [<URL>/tree/<sha>], for every
    owner and repository name, when the protocol of the page has no
    letter [g]. *)
Theorem submodule_ssh_links (e : Env) (st : State) (k : nat)
    (item0 : Item) (owner rn s : str) :
  type (transformed e item0) = commit ->
  submodules e !! final_path e item0
  = Some (lit "git@github.com:" ++ owner ++ lit "/" ++ rn ++ lit ".git") ->
  sha (transformed e item0) = Some s ->
  Forall (fun c => c <> 103) (location_protocol (host e)) ->
  process_item e st k item0
  = (st1 ← push_item st (bucket_key e (final_path e item0)) k;
     Ok (write_item st1 k
           (rendered e (transformed e item0) (final_path e item0)
              (item_name (final_path e item0))
              (children (transformed e item0))
              (anchor (location_protocol (host e) ++ lit "//github.com/"
                       ++ owner ++ lit "/" ++ rn)
                 (item_name (final_path e item0))
               ++ lit "<span>@ </span>"
               ++ anchor ((location_protocol (host e) ++ lit "//github.com/"
                           ++ owner ++ lit "/" ++ rn) ++ lit "/tree/" ++ s)
                    (substr s 0 7))
              (Some {| href := location_protocol (host e)
                               ++ lit "//github.com/" ++ owner ++ lit "/" ++ rn;
                       data_download_url := None;
                       data_download_filename := None |})))).
Proof.
  intros Ht Hs Hsha Hno. unfold process_item.
  destruct (push_item st _ k) as [st1|x]; [|reflexivity].
  cbn [mbind Res_bind]. unfold type_branch, children_step. rewrite Ht.
  unfold submodule_branch, lookup_submodule. rewrite Hs.
  cbn [mbind Res_bind]. rewrite indexOf_truthy.
  assert (occursb (lit "github.com")
            (lit "git@github.com:" ++ owner ++ lit "/" ++ rn ++ lit ".git")
          = true) as ->.
  { apply occursb_occurs.
    by exists (lit "git@"), (lit ":" ++ owner ++ lit "/" ++ rn ++ lit ".git"). }
  change (truthy_str (lit "git@github.com:" ++ owner ++ lit "/" ++ rn
                      ++ lit ".git")) with true.
  cbv iota. rewrite (normalize_ssh_url _ _ _ Hno), Hsha.
  unfold submodule_text. cbn [mbind Res_bind].
  do 3 f_equal. unfold anchor. by rewrite <- !app_assoc.
Qed.

Lemma submodule_ssh_links_witness :
  (items (run_item (env_of host0 opts0
                      (vendor_at (lit "git@github.com:github.com:x/repo.git")))
            (init_state [vendor None]) 0 (vendor None)) !! 0%nat)
  ≫= a_attr
  = Some {| href := lit "https://github.com/github.com:x/repo";
            data_download_url := None;
            data_download_filename := None |}.
Proof.
  unfold run_item.
  rewrite (submodule_ssh_links
             (env_of host0 opts0
                (vendor_at (lit "git@github.com:github.com:x/repo.git")))
             (init_state [vendor None]) 0 (vendor None)
             (lit "github.com:x") (lit "repo") (lit "0123456789abcdef"));
    [ | reflexivity | vm_compute; reflexivity | reflexivity
      | vm_compute; repeat constructor; lia ].
  vm_compute. reflexivity.
Defined.

End SshSubmodules.

Module DataFacts.
Import JS Adapter Spec SpecData.
Import JSFacts RenderFacts ChunkFacts StoreFacts RangeFacts.

Lemma process_item_data (e : Env) (st st' : State) (k : nat) (it : Item) :
  process_item e st k it = Ok st' ->
  exists nd, items st' = <[k := nd]> (items st) /\ keeps_data e it nd.
Proof.
  intros H. apply process_item_inv in H
    as (st1 & st2 & ch & txt & attr & H1 & H2 & ->).
  eexists. split.
  - simpl. apply push_item_inv in H1 as (r & _ & ->).
    apply type_branch_store in H2 as [[_ ->] | (_ & _ & -> & _)]; reflexivity.
  - repeat split. simpl. eauto.
Qed.

Lemma node_id_inj (e : Env) : Inj (=) (=) (node_id e).
Proof. intros p q [= H]. by apply app_inv_head in H. Qed.

End DataFacts.

Module Data.
Import JS Adapter Spec SpecData Examples.
Import JSFacts RenderFacts ChunkFacts StoreFacts RangeFacts DataFacts.

(** X9. A load that delivers a tree keeps the data of every entry: the
    store has as many entries as the list fetched, and the node at each
    index has the type, sha, url and patch of the entry received there
    (after the transform), the icon class of its type and name, and a
    text; no later iteration overwrites an entry already processed. *)
Theorem load_keeps_data (h : Host) (o : Opts) (tr : option (Item -> Item))
    (root : option nat) (st : State) :
  _loadCodeTreeInternal h o tr = Some (Ok (CbTree root st)) ->
  exists e t,
    prepare h o tr = Ok (inr (e, t)) /\
    length (items st) = length t /\
    forall j d, t !! j = Some d ->
      exists nd, items st !! j = Some nd /\ keeps_data e d nd.
Proof.
  intros H. apply load_delivers_inv in H as (e & t & Hprep & Hrange & _).
  exists e, t. split; [done|].
  pose proof (store_inv_range e t (length t) 0 _ _
                (store_inv_init e t) ltac:(lia) Hrange) as Hinv.
  split; [apply Hinv|].
  pose (P := fun (k : nat) (s : State) =>
          forall j d, (j < k)%nat -> t !! j = Some d ->
            exists nd, items s !! j = Some nd /\ keeps_data e d nd).
  assert (P (length t) st) as HP.
  { apply (range_induction e t P); [intros j d Hj; lia| |done].
    intros k s s' it Hinv' IH Hit Hstep j d Hj Hd.
    apply process_item_data in Hstep as (nd & -> & Hnd).
    destruct (decide (j = k)) as [->|Hne].
    - exists nd. rewrite list_lookup_insert_eq
        by (rewrite (inv_length _ _ _ _ Hinv'); by eapply lookup_lt_Some).
      by replace d with it by congruence.
    - rewrite list_lookup_insert_ne by done. apply IH; [lia|done]. }
  intros j d Hd. apply HP; [|done]. by eapply lookup_lt_Some.
Qed.

Lemma load_keeps_data_witness :
  exists e t,
    prepare (host_of odd_tree ∅) opts0 None = Ok (inr (e, t)) /\
    length (items (loaded_store (host_of odd_tree ∅) opts0)) = length t /\
    forall j d, t !! j = Some d ->
      exists nd,
        items (loaded_store (host_of odd_tree ∅) opts0) !! j = Some nd /\
        keeps_data e d nd.
Proof.
  apply (load_keeps_data (host_of odd_tree ∅) opts0 None (Some 0%nat)).
  vm_compute. reflexivity.
Defined.

(** X10. The ids of the nodes of a delivered tree are the prefix
    followed by the paths of the entries, in the order received; so
    they are pairwise distinct exactly when the paths of the entries
    fetched (after the transform and the prefix of a lazy load) are:
    a path listed twice gives two nodes with one id. *)
Theorem load_ids_unique (h : Host) (o : Opts) (tr : option (Item -> Item))
    (root : option nat) (st : State) :
  _loadCodeTreeInternal h o tr = Some (Ok (CbTree root st)) ->
  exists e t,
    prepare h o tr = Ok (inr (e, t)) /\
    id <$> items st = node_id e <$> (final_path e <$> t) /\
    (NoDup (id <$> items st) <-> NoDup (final_path e <$> t)).
Proof.
  intros H. apply load_delivers_inv in H as (e & t & Hprep & Hrange & _).
  exists e, t. split; [done|].
  pose proof (store_inv_range e t (length t) 0 _ _
                (store_inv_init e t) ltac:(lia) Hrange) as Hinv.
  simpl in Hinv.
  assert (id <$> items st = node_id e <$> (final_path e <$> t)) as E.
  { apply list_eq. intros j. rewrite !list_lookup_fmap.
    destruct (t !! j) as [d|] eqn:Hd.
    - destruct (inv_done _ _ _ _ Hinv j d) as (nd & -> & _ & Hid);
        [by eapply lookup_lt_Some|done|].
      simpl. by rewrite Hid.
    - rewrite (lookup_ge_None_2 (items st) j); [done|].
      rewrite (inv_length _ _ _ _ Hinv). by apply lookup_ge_None. }
  split; [done|]. rewrite E.
  apply NoDup_fmap, node_id_inj.
Qed.

Lemma load_ids_unique_witness :
  exists e t,
    prepare (host_of odd_tree ∅) opts0 None = Ok (inr (e, t)) /\
    id <$> items (loaded_store (host_of odd_tree ∅) opts0)
    = node_id e <$> (final_path e <$> t) /\
    (NoDup (id <$> items (loaded_store (host_of odd_tree ∅) opts0))
     <-> NoDup (final_path e <$> t)).
Proof.
  apply (load_ids_unique (host_of odd_tree ∅) opts0 None (Some 0%nat)).
  vm_compute. reflexivity.
Defined.

End Data.

Module ScheduleFacts.
Import JS Adapter Spec.
Import JSFacts RenderFacts ChunkFacts.

(** While more than a chunk of entries is left of a pass that succeeds,
    the call of [nextChunk] ends with a scheduled call. *)
Lemma nextChunk_out_of_fuel (e : Env) (cs : nat) :
  (0 < cs)%nat ->
  forall (fuel it : nat) (st st' : State),
    (it * cs <= length (items st))%nat ->
    process_range e (seq (it * cs) (length (items st) - it * cs)) st
    = Ok st' ->
    (fuel < (length (items st) - it * cs) / cs)%nat ->
    nextChunk e cs fuel it st = None.
Proof.
  intros Hcs fuel it st st' Hk Hrun Hfuel.
  assert (it * cs + cs <= length (items st))%nat as Hfull.
  { destruct (Nat.le_gt_cases (it * cs + cs) (length (items st)));
      [done|]. rewrite Nat.div_small in Hfuel by lia. lia. }
  revert it st Hk Hrun Hfuel Hfull.
  induction fuel as [|fuel IH]; intros it st Hk Hrun Hfuel Hfull;
    cbn [nextChunk]; rewrite chunk_loop_full by lia;
    rewrite Nat.add_0_r;
    replace (length (items st) - it * cs)%nat
      with (cs + (length (items st) - S it * cs))%nat in Hrun
      by (simpl; lia);
    rewrite seq_app, process_range_app in Hrun;
    apply bind_Ok_inv in Hrun as (st1 & E & Hrun);
    rewrite E; cbn [mbind Res_bind]; [done|].
  pose proof (process_range_length _ _ _ _ E) as Hl.
  replace (length (items st) - it * cs)%nat
    with ((length (items st) - S it * cs) + 1 * cs)%nat in Hfuel
    by (simpl; lia).
  rewrite Nat.div_add in Hfuel by lia.
  assert (S it * cs + cs <= length (items st))%nat as Hfull'.
  { destruct (Nat.le_gt_cases (S it * cs + cs) (length (items st)));
      [done|]. rewrite Nat.div_small in Hfuel by lia. lia. }
  apply IH; rewrite ?Hl; [simpl; lia| |lia|lia].
  by replace (it * cs + cs)%nat with (S it * cs)%nat in Hrun by lia.
Qed.

End ScheduleFacts.

Module Schedule.
Import JS Adapter Spec Examples ExamplesMore.
Import JSFacts RenderFacts ChunkFacts ScheduleFacts.

(** X11. The number of calls of [nextChunk] that go through
    [setTimeout]: on a list of [n] entries and with a positive chunk
    size [cs], [n / cs] scheduled calls (rounded down) are enough for
    the loop to end as the sequential pass does; and when the pass
    succeeds they are all needed: with fewer the callback is not
    reached. A list whose length is a multiple of the chunk size takes
    one more call, which finds no entry and calls the callback. *)
Theorem scheduled_calls (e : Env) (cs fuel : nat) (t : list Item) :
  (0 < cs)%nat ->
  ((length t / cs <= fuel)%nat ->
   nextChunk e cs fuel 0 (init_state t) = Some (sequential_pass e t)) /\
  (forall st,
     process_range e (seq 0 (length t)) (init_state t) = Ok st ->
     (fuel < length t / cs)%nat ->
     nextChunk e cs fuel 0 (init_state t) = None).
Proof.
  intros Hcs. split.
  - intros Hfuel. rewrite nextChunk_sequential; simpl; [|lia|lia|].
    + by rewrite Nat.sub_0_r.
    + rewrite Nat.sub_0_r.
      destruct (Nat.le_gt_cases (cs * S fuel) (length t)) as [H|H]; [|lia].
      apply Nat.div_le_lower_bound in H; lia.
  - intros st Hrun Hfuel.
    apply (nextChunk_out_of_fuel e cs Hcs fuel 0 (init_state t) st);
      simpl; [lia| |]; by rewrite Nat.sub_0_r.
Qed.

Lemma scheduled_calls_witness :
  ((length flat_four / 2 <= 2)%nat ->
   nextChunk (env_of host0 opts0 ∅) 2 2 0 (init_state flat_four)
   = Some (sequential_pass (env_of host0 opts0 ∅) flat_four)) /\
  (forall st,
     process_range (env_of host0 opts0 ∅) (seq 0 (length flat_four))
       (init_state flat_four) = Ok st ->
     (2 < length flat_four / 2)%nat ->
     nextChunk (env_of host0 opts0 ∅) 2 2 0 (init_state flat_four) = None).
Proof. apply (scheduled_calls (env_of host0 opts0 ∅) 2 2 flat_four). lia. Defined.

End Schedule.

Module SliceFacts.
Import JS Adapter Spec.
Import JSFacts RenderFacts ChunkFacts.

(** The pass over the indices [ks] leaves the entries at other indices
    as they are. *)
Lemma process_range_outside (e : Env) (ks : list nat) (st st' : State)
    (j : nat) :
  process_range e ks st = Ok st' -> j ∉ ks ->
  items st' !! j = items st !! j.
Proof.
  revert st. induction ks as [|k ks IH]; intros st; simpl.
  - by intros [= <-].
  - intros H Hj. apply not_elem_of_cons in Hj as [Hjk Hj].
    destruct (items st !! k) as [item|]; [|by apply IH].
    apply bind_Ok_inv in H as (st1 & H1 & H).
    rewrite (IH _ H Hj).
    apply process_item_items in H1 as (node & -> & _).
    by apply list_lookup_insert_ne.
Qed.

(** A run of the [for] loop that ends with a scheduled call has found
    an entry in each of its rounds. *)
Lemma chunk_loop_scheduled (e : Env) (cs it : nat) (rem i : nat)
    (st st' : State) :
  chunk_loop e cs it rem i st = Ok (Scheduled st') ->
  (rem = 0 \/ it * cs + i + rem <= length (items st))%nat /\
  process_range e (seq (it * cs + i) rem) st = Ok st'.
Proof.
  revert i st. induction rem as [|rem IH]; intros i st; simpl.
  - intros [= <-]. auto.
  - destruct (items st !! (it * cs + i)%nat) as [item|] eqn:Hitem;
      [|discriminate].
    intros H. apply bind_Ok_inv in H as (st1 & H1 & H).
    rewrite H1. cbn [mbind Res_bind].
    apply IH in H as [Hlen H]. rewrite Nat.add_succ_r in H, Hlen.
    split; [right|done].
    rewrite (process_item_length _ _ _ _ _ H1) in Hlen.
    apply lookup_lt_Some in Hitem. lia.
Qed.

End SliceFacts.

Module Slice.
Import JS Adapter Spec Examples ExamplesMore.
Import JSFacts RenderFacts ChunkFacts SliceFacts.

(** X13. One call of [nextChunk] works on its slice only: when the
    [for] loop of call number [it] ends by scheduling the next call, the
    list has an entry at each of the [cs] indices from [it * cs] on,
    the store is the one the loop body produces on these indices in
    increasing order, and every entry outside the slice is as it was
    before the call. *)
Theorem chunk_is_bounded (e : Env) (cs it : nat) (st st' : State) :
  chunk_loop e cs it cs 0 st = Ok (Scheduled st') ->
  (it * cs + cs <= length (items st) \/ cs = 0)%nat /\
  process_range e (seq (it * cs) cs) st = Ok st' /\
  length (items st') = length (items st) /\
  forall j, (j < it * cs \/ it * cs + cs <= j)%nat ->
    items st' !! j = items st !! j.
Proof.
  intros H. apply chunk_loop_scheduled in H as [Hlen H].
  rewrite Nat.add_0_r in H, Hlen.
  split; [lia|]. split; [done|].
  split; [by eapply process_range_length|].
  intros j Hj. apply (process_range_outside _ _ _ _ _ H).
  rewrite elem_of_seq. lia.
Qed.

Lemma chunk_is_bounded_witness :
  (0 * 2 + 2 <= length (items (init_state flat_four)) \/ 2 = 0)%nat /\
  process_range (env_of host0 opts0 ∅) (seq (0 * 2) 2) (init_state flat_four)
  = Ok (first_two_done) /\
  length (items first_two_done) = length (items (init_state flat_four)) /\
  forall j, (j < 0 * 2 \/ 0 * 2 + 2 <= j)%nat ->
    items first_two_done !! j = items (init_state flat_four) !! j.
Proof.
  apply (chunk_is_bounded (env_of host0 opts0 ∅) 2 0).
  vm_compute. reflexivity.
Defined.

End Slice.
